(** * Envelope encryption of transactions: packages/crypto/src/envelope.ts

    A shallow embedding of the envelope module and the properties of its two
    entry points, [encryptTransaction] and [decryptTransaction].

    Conventions of the embedding.
    - A JavaScript string is a [string]; a string holds its text as UTF-8, so
      [Buffer.from(s, "utf8")] lists its bytes.  Every test the module makes on
      a string (emptiness, the hex character class, the length of a string of
      hex digits) reads the same on this representation.
    - A [Buffer] is a [list byte].
    - A record has the fields of the type [TxSecureRecord]: ten strings and
      the number [mk_version], an integer.  On such a record the tests
      [typeof x !== "string"] of the module are never true, and a field is
      falsy exactly when it is the empty string.
    - The module tests [!x || typeof x !== "string"] on the [partyId] that
      [encryptTransaction] is handed and on the [id], [partyId] and
      [createdAt] of the record that [decryptTransaction] is handed: the two
      entry points are written over the type of these fields, a [string] for
      the declared types and a [Dynamic] for any value a caller may pass (an
      absent property, a value of another type, or a string), with both tests
      of the guard on each.
    - [throw new Error(m)] is the outcome [Throw m]; a function that may throw
      returns an [Outcome].
    - What node provides (AES-256-GCM, the random source, the clock,
      [Date.parse], [JSON.stringify] and [JSON.parse] on the payload) is a
      [Platform]; the properties are proved for every platform that meets the
      documented contract of these functions, [PlatformLaws]. *)

From Stdlib Require Import String Ascii List Bool Arith NArith ZArith Lia.
From Stdlib.Strings Require Import Byte.
Import ListNotations.
Open Scope string_scope.

(** ** Outcomes: a returned value or a thrown [Error] with its message *)

Inductive Outcome (A : Type) : Type :=
| Ok (a : A)
| Throw (message : string).

Arguments Ok {A} a.
Arguments Throw {A} message.

Definition bindO {A B} (m : Outcome A) (k : A -> Outcome B) : Outcome B :=
  match m with
  | Ok a => k a
  | Throw e => Throw e
  end.

Declare Scope outcome_scope.
Delimit Scope outcome_scope with outcome.
Notation "x <-- m ;; k" := (bindO m (fun x => k))
  (at level 61, m at next level, right associativity) : outcome_scope.
Notation "m ;;; k" := (bindO m (fun _ => k))
  (at level 61, right associativity) : outcome_scope.

(** ** Buffers and the hex codec of node's [Buffer] *)

Definition Buffer := list byte.

Definition byte_of_N (n : N) : byte := byte_of_ascii (ascii_of_N n).
Definition N_of_byte (b : byte) : N := N_of_ascii (ascii_of_byte b).

(** [buf.toString("hex")]: two lowercase digits per byte. *)
Definition hex_digit (n : N) : ascii :=
  if (n <? 10)%N then ascii_of_N (48 + n) else ascii_of_N (87 + n).

Fixpoint Buffer_toString_hex (buf : Buffer) : string :=
  match buf with
  | [] => ""
  | b :: rest =>
      String (hex_digit (N_of_byte b / 16))
        (String (hex_digit (N_of_byte b mod 16)) (Buffer_toString_hex rest))
  end.

(** The value of one hex digit, of either case. *)
Definition hex_value (c : ascii) : option N :=
  let n := N_of_ascii c in
  if ((48 <=? n) && (n <=? 57))%N then Some (n - 48)%N
  else if ((97 <=? n) && (n <=? 102))%N then Some (n - 87)%N
  else if ((65 <=? n) && (n <=? 70))%N then Some (n - 55)%N
  else None.

(** [Buffer.from(s, "hex")]: decodes pairs of digits and stops at the first
    pair that is not two hex digits (a trailing single character is dropped). *)
Fixpoint Buffer_from_hex (s : string) : Buffer :=
  match s with
  | String a (String b rest) =>
      match hex_value a, hex_value b with
      | Some x, Some y => byte_of_N (16 * x + y) :: Buffer_from_hex rest
      | _, _ => []
      end
  | _ => []
  end.

(** [Buffer.from(s, "utf8")] and [buf.toString("utf8")]. *)
Definition Buffer_from_utf8 (s : string) : Buffer := list_byte_of_string s.
Definition Buffer_toString_utf8 (buf : Buffer) : string := string_of_list_byte buf.

(** ** Constants *)

Definition NONCE_BYTES : nat := 12.
Definition TAG_BYTES : nat := 16.
Definition KEY_BYTES : nat := 32.

(** ** Hex validators *)

(** The character class [[0-9a-fA-F]]. *)
Definition hex_class (c : ascii) : bool :=
  let n := N_of_ascii c in
  (((48 <=? n) && (n <=? 57)) || ((97 <=? n) && (n <=? 102))
   || ((65 <=? n) && (n <=? 70)))%N.

(** The lowercase digits [[0-9a-f]]. *)
Definition lower_hex_class (c : ascii) : bool :=
  let n := N_of_ascii c in
  (((48 <=? n) && (n <=? 57)) || ((97 <=? n) && (n <=? 102)))%N.

Fixpoint all_chars (cls : ascii -> bool) (s : string) : bool :=
  match s with
  | EmptyString => true
  | String c rest => cls c && all_chars cls rest
  end.

(** [/^[0-9a-fA-F]+$/.test(str)]: one or more characters, all of the class. *)
Definition re_hex_test (str : string) : bool :=
  match str with
  | EmptyString => false
  | String _ _ => all_chars hex_class str
  end.

Definition isValidHex (str : string) : bool :=
  (String.length str mod 2 =? 0)%nat && re_hex_test str.

Definition assertHexLength (hex : string) (expectedBytes : nat) (field : string)
  : Outcome unit :=
  if negb (isValidHex hex) then Throw (field ++ ": invalid hex")
  else if negb (String.length hex =? expectedBytes * 2)%nat
       then Throw (field ++ ": invalid length")
       else Ok tt.

Definition fromHex (hex : string) (field : string) : Outcome Buffer :=
  if negb (isValidHex hex) then Throw (field ++ ": invalid hex")
  else Ok (Buffer_from_hex hex).

(** ** JSON text of the metadata object

    [JSON.stringify({ id, partyId, createdAt, alg, mk_version })] on an object
    literal of four strings and a number: the properties in the order of the
    literal, each string through QuoteJSONString (ECMA-262, 25.5.2.3). *)

Definition dquote : ascii := ascii_of_N 34.
Definition backslash : ascii := ascii_of_N 92.

Definition escape_char (c : ascii) : string :=
  let n := N_of_ascii c in
  if (n =? 8)%N then "\b"
  else if (n =? 9)%N then "\t"
  else if (n =? 10)%N then "\n"
  else if (n =? 12)%N then "\f"
  else if (n =? 13)%N then "\r"
  else if (n =? 34)%N then String backslash (String dquote "")
  else if (n =? 92)%N then String backslash (String backslash "")
  else if (n <? 32)%N
       then "\u00" ++ String (hex_digit (n / 16)) (String (hex_digit (n mod 16)) "")
       else String c "".

Fixpoint escape_chars (s : string) : string :=
  match s with
  | EmptyString => ""
  | String c rest => escape_char c ++ escape_chars rest
  end.

Definition QuoteJSONString (s : string) : string :=
  String dquote (escape_chars s ++ String dquote "").

(** Decimal digits of a natural number, most significant first. *)
Fixpoint digits_fuel (fuel : nat) (n : N) (acc : string) : string :=
  match fuel with
  | O => acc
  | S fuel' =>
      let acc' := String (ascii_of_N (48 + n mod 10)) acc in
      if (n <? 10)%N then acc' else digits_fuel fuel' (n / 10) acc'
  end.

Definition digits (n : N) : string := digits_fuel (S (N.to_nat (N.log2 n))) n "".

(** Number::toString on an integer (below 10^21 in magnitude). *)
Definition Number_toString (z : Z) : string :=
  match z with
  | Z0 => "0"
  | Zpos p => digits (Npos p)
  | Zneg p => "-" ++ digits (Npos p)
  end.

Definition property (key : string) (json : string) : string :=
  QuoteJSONString key ++ ":" ++ json.

Definition metadataJson (id partyId createdAt alg : string) (mk_version : Z)
  : string :=
  "{" ++ property "id" (QuoteJSONString id)
  ++ "," ++ property "partyId" (QuoteJSONString partyId)
  ++ "," ++ property "createdAt" (QuoteJSONString createdAt)
  ++ "," ++ property "alg" (QuoteJSONString alg)
  ++ "," ++ property "mk_version" (Number_toString mk_version)
  ++ "}".

(** ** The secure record (types.ts, [TxSecureRecord]) *)

(** [validateRecordShape] and [encryptTransaction] test
    [!x || typeof x !== "string"] on [id], [partyId] and [createdAt]: the
    declared type says [string], the test is written for any value a caller
    may hand over.  A [Dynamic] is such a value, as far as the two tests can
    tell it apart: an absent property, a value of another type (truthy or
    not), or a string. *)
Inductive Dynamic : Type :=
| Undefined
| NotString (truthy : bool)
| IsString (s : string).

(** [!s] on a string: true of the empty string only. *)
Definition falsy (s : string) : bool :=
  match s with
  | EmptyString => true
  | String _ _ => false
  end.

(** What the module asks of the value of such a field: [falsy_value x] is
    [!x], [typeof_string x] is [typeof x === "string"], and [as_string x] is
    the string that [x] is once both tests have let it through. *)
Class StringField (S : Type) : Type := {
  falsy_value : S -> bool;
  typeof_string : S -> bool;
  as_string : S -> string
}.

#[export] Instance dynamic_field : StringField Dynamic | 10 := {
  falsy_value x :=
    match x with
    | Undefined => true
    | NotString truthy => negb truthy
    | IsString s => falsy s
    end;
  typeof_string x :=
    match x with
    | IsString _ => true
    | _ => false
    end;
  as_string x :=
    match x with
    | IsString s => s
    | _ => EmptyString
    end
}.

(** A value of the declared type: a string. *)
#[export] Instance string_field : StringField string | 0 := {
  falsy_value := falsy;
  typeof_string := fun _ => true;
  as_string := fun s => s
}.

(** The record, with [id], [partyId] and [createdAt] of type [S]: [string] for
    the declared type [TxSecureRecord], [Dynamic] for an object that a caller
    passes in its place. *)
Record RecordOf (S : Type) : Type := mkRecordOf {
  id : S;
  partyId : S;
  createdAt : S;
  payload_nonce : string;
  payload_ct : string;
  payload_tag : string;
  dek_wrap_nonce : string;
  dek_wrapped : string;
  dek_wrap_tag : string;
  alg : string;
  mk_version : Z
}.

Arguments mkRecordOf {S} _ _ _ _ _ _ _ _ _ _ _.
Arguments id {S} _.
Arguments partyId {S} _.
Arguments createdAt {S} _.
Arguments payload_nonce {S} _.
Arguments payload_ct {S} _.
Arguments payload_tag {S} _.
Arguments dek_wrap_nonce {S} _.
Arguments dek_wrapped {S} _.
Arguments dek_wrap_tag {S} _.
Arguments alg {S} _.
Arguments mk_version {S} _.

(** The declared type (types.ts). *)
Abbreviation TxSecureRecord := (RecordOf string).

Abbreviation mkRecord := (@mkRecordOf string).

(** ** The platform: what node supplies to the module *)

Record Platform : Type := mkPlatform {
  (** the values a payload of type [unknown] ranges over *)
  JSValue : Type;
  (** the state of the random source and of the clock *)
  Entropy : Type;
  (** [randomBytes(n)] *)
  randomBytes : nat -> Entropy -> Buffer * Entropy;
  (** [randomUUID()] *)
  randomUUID : Entropy -> string * Entropy;
  (** [new Date().toISOString()] *)
  Date_now_toISOString : Entropy -> string * Entropy;
  (** [Number.isNaN(Date.parse(s))] *)
  Date_parse_isNaN : string -> bool;
  (** [JSON.stringify(v)]: a text, [undefined] ([None]), or a thrown TypeError;
      it leaves the value as it is *)
  JSON_stringify : JSValue -> Outcome (option string);
  (** [JSON.parse(s)]: [None] when it throws a SyntaxError *)
  JSON_parse : string -> option JSValue;
  (** createCipheriv("aes-256-gcm", key, nonce), setAAD, update, final,
      getAuthTag: key, nonce, aad, plaintext to ciphertext and tag *)
  aes256gcm_encrypt : Buffer -> Buffer -> Buffer -> Buffer -> Buffer * Buffer;
  (** createDecipheriv("aes-256-gcm", key, nonce), setAAD, setAuthTag, update,
      final: key, nonce, aad, ciphertext, tag to the plaintext, [None] when
      any of these throws *)
  aes256gcm_decrypt : Buffer -> Buffer -> Buffer -> Buffer -> Buffer -> option Buffer
}.

(** The documented contract of these functions. *)
Record PlatformLaws (P : Platform) : Prop := mkLaws {
  randomBytes_length :
    forall n e, length (fst (randomBytes P n e)) = n;
  randomUUID_nonempty :
    forall e, fst (randomUUID P e) <> "";
  toISOString_nonempty :
    forall e, fst (Date_now_toISOString P e) <> "";
  toISOString_parses :
    forall e, Date_parse_isNaN P (fst (Date_now_toISOString P e)) = false;
  stringify_nonempty :
    forall v s, JSON_stringify P v = Ok (Some s) -> s <> "";
  gcm_ciphertext_length :
    forall key nonce aad plaintext,
      length key = KEY_BYTES -> length nonce = NONCE_BYTES ->
      length (fst (aes256gcm_encrypt P key nonce aad plaintext)) = length plaintext;
  gcm_tag_length :
    forall key nonce aad plaintext,
      length key = KEY_BYTES -> length nonce = NONCE_BYTES ->
      length (snd (aes256gcm_encrypt P key nonce aad plaintext)) = TAG_BYTES;
  gcm_decrypt_encrypt :
    forall key nonce aad plaintext,
      length key = KEY_BYTES -> length nonce = NONCE_BYTES ->
      aes256gcm_decrypt P key nonce aad
        (fst (aes256gcm_encrypt P key nonce aad plaintext))
        (snd (aes256gcm_encrypt P key nonce aad plaintext)) = Some plaintext
}.

Arguments randomBytes_length {P} _ _ _.
Arguments randomUUID_nonempty {P} _ _.
Arguments toISOString_nonempty {P} _ _.
Arguments toISOString_parses {P} _ _.
Arguments stringify_nonempty {P} _ _ _ _.
Arguments gcm_ciphertext_length {P} _ _ _ _ _ _ _.
Arguments gcm_tag_length {P} _ _ _ _ _ _ _.
Arguments gcm_decrypt_encrypt {P} _ _ _ _ _ _ _.

(** ** Calls: the argument object and the entropy are the state of a call *)

Record Machine (E I : Type) : Type := mkMachine {
  arguments : I;
  entropy : E
}.

Arguments mkMachine {E I} _ _.
Arguments arguments {E I} _.
Arguments entropy {E I} _.

Definition Exec (E I A : Type) : Type := Machine E I -> Outcome A * Machine E I.

Definition ret {E I A} (a : A) : Exec E I A := fun m => (Ok a, m).

Definition throw {E I A} (message : string) : Exec E I A :=
  fun m => (Throw message, m).

Definition bind {E I A B} (c : Exec E I A) (k : A -> Exec E I B) : Exec E I B :=
  fun m =>
    match c m with
    | (Ok a, m') => k a m'
    | (Throw e, m') => (Throw e, m')
    end.

Definition liftO {E I A} (o : Outcome A) : Exec E I A := fun m => (o, m).

(** Reading the argument object. *)
Definition getArguments {E I} : Exec E I I := fun m => (Ok (arguments m), m).

(** Assigning to the argument object.  The module makes no assignment to
    its arguments, so no definition below uses it. *)
Definition assign {E I} (f : I -> I) : Exec E I unit :=
  fun m => (Ok tt, {| arguments := f (arguments m); entropy := entropy m |}).

(** Drawing from the random source or the clock. *)
Definition draw {E I A} (f : E -> A * E) : Exec E I A :=
  fun m =>
    let (a, e') := f (entropy m) in
    (Ok a, {| arguments := arguments m; entropy := e' |}).

Declare Scope exec_scope.
Delimit Scope exec_scope with exec.
Notation "x <- c ;; k" := (bind c (fun x => k))
  (at level 61, c at next level, right associativity) : exec_scope.
Notation "c ;; k" := (bind c (fun _ => k))
  (at level 61, right associativity) : exec_scope.

(** ** The envelope module *)

Record Sealed : Type := mkSealed {
  nonce : Buffer;
  ciphertext : Buffer;
  tag : Buffer
}.

(** The argument of [encryptTransaction], with a [partyId] of type [S]. *)
Record EncryptInputOf (S V : Type) : Type := mkEncryptInput {
  enc_partyId : S;
  enc_payload : V;
  enc_masterKeyHex : string
}.

Arguments mkEncryptInput {S V} _ _ _.
Arguments enc_partyId {S V} _.
Arguments enc_payload {S V} _.
Arguments enc_masterKeyHex {S V} _.

Abbreviation EncryptInput V := (EncryptInputOf string V).

(** The argument of [decryptTransaction]. *)
Record DecryptInputOf (S : Type) : Type := mkDecryptInput {
  dec_record : RecordOf S;
  dec_masterKeyHex : string
}.

Arguments mkDecryptInput {S} _ _.
Arguments dec_record {S} _.
Arguments dec_masterKeyHex {S} _.

Abbreviation DecryptInput := (DecryptInputOf string).

Definition SUPPORTED_ALG : string := "AES-256-GCM".

Section Envelope.

Variable P : Platform.

(** The type of the fields that the caller supplies where a string is
    declared, with the two tests the module makes on them. *)
Context {S : Type} {F : StringField S}.

Local Open Scope exec_scope.

(** An omitted [aad] leaves the cipher's associated data empty. *)
Definition aad_bytes (aad : option Buffer) : Buffer :=
  match aad with
  | Some a => a
  | None => []
  end.

Definition aesGcmEncrypt {I} (key plaintext : Buffer) (aad : option Buffer)
  : Exec (Entropy P) I Sealed :=
  if negb (length key =? KEY_BYTES)%nat then throw "key: invalid length"
  else
    nonce <- draw (randomBytes P NONCE_BYTES) ;;
    let sealed := aes256gcm_encrypt P key nonce (aad_bytes aad) plaintext in
    ret {| nonce := nonce; ciphertext := fst sealed; tag := snd sealed |}.

Definition aesGcmDecrypt (key nonce ciphertext tag : Buffer) (aad : option Buffer)
  : Outcome Buffer :=
  if negb (length key =? KEY_BYTES)%nat then Throw "key: invalid length"
  else if negb (length nonce =? NONCE_BYTES)%nat then Throw "nonce: invalid length"
  else if negb (length tag =? TAG_BYTES)%nat then Throw "tag: invalid length"
  else
    match aes256gcm_decrypt P key nonce (aad_bytes aad) ciphertext tag with
    | Some plaintext => Ok plaintext
    | None => Throw "decryption failed"
    end.

Definition parseMasterKeyHex (masterKeyHex : string) : Outcome Buffer :=
  (assertHexLength masterKeyHex KEY_BYTES "master key" ;;;
   Ok (Buffer_from_hex masterKeyHex))%outcome.

Definition encryptTransaction
  : Exec (Entropy P) (EncryptInputOf S (JSValue P)) TxSecureRecord :=
  input <- getArguments ;;
  let partyId := enc_partyId input in
  let payload := enc_payload input in
  let masterKeyHex := enc_masterKeyHex input in
  if falsy_value partyId || negb (typeof_string partyId)
  then throw "partyId is required"
  else
    masterKey <- liftO (parseMasterKeyHex masterKeyHex) ;;
    dek <- draw (randomBytes P KEY_BYTES) ;;
    payloadJson <- liftO (JSON_stringify P payload) ;;
    match payloadJson with
    | None => throw "payload is not JSON-serializable"
    | Some payloadJson =>
        let payloadBuffer := Buffer_from_utf8 payloadJson in
        id <- draw (randomUUID P) ;;
        createdAt <- draw (Date_now_toISOString P) ;;
        let alg := SUPPORTED_ALG in
        let mk_version := 1%Z in
        let aad :=
          Buffer_from_utf8
            (metadataJson id (as_string partyId) createdAt alg mk_version) in
        payloadEncrypted <- aesGcmEncrypt dek payloadBuffer (Some aad) ;;
        wrappedDek <- aesGcmEncrypt masterKey dek (Some aad) ;;
        ret {| id := id;
               partyId := as_string partyId;
               createdAt := createdAt;
               payload_nonce := Buffer_toString_hex (nonce payloadEncrypted);
               payload_ct := Buffer_toString_hex (ciphertext payloadEncrypted);
               payload_tag := Buffer_toString_hex (tag payloadEncrypted);
               dek_wrap_nonce := Buffer_toString_hex (nonce wrappedDek);
               dek_wrapped := Buffer_toString_hex (ciphertext wrappedDek);
               dek_wrap_tag := Buffer_toString_hex (tag wrappedDek);
               alg := alg;
               mk_version := mk_version |}
    end.

Definition validateRecordShape (record : RecordOf S) : Outcome unit :=
  if falsy_value (id record) || negb (typeof_string (id record))
  then Throw "id is required"
  else if falsy_value (partyId record) || negb (typeof_string (partyId record))
  then Throw "partyId is required"
  else if falsy_value (createdAt record)
          || negb (typeof_string (createdAt record))
  then Throw "createdAt is required"
  else if Date_parse_isNaN P (as_string (createdAt record))
       then Throw "createdAt: invalid format"
  else if negb (alg record =? SUPPORTED_ALG)%string
       then Throw "unsupported algorithm"
  else if negb (mk_version record =? 1)%Z
       then Throw "unsupported master key version"
  else
    (assertHexLength (payload_nonce record) NONCE_BYTES "payload_nonce" ;;;
     assertHexLength (payload_tag record) TAG_BYTES "payload_tag" ;;;
     assertHexLength (dek_wrap_nonce record) NONCE_BYTES "dek_wrap_nonce" ;;;
     assertHexLength (dek_wrap_tag record) TAG_BYTES "dek_wrap_tag" ;;;
     fromHex (payload_ct record) "payload_ct" ;;;
     fromHex (dek_wrapped record) "dek_wrapped" ;;;
     Ok tt)%outcome.

(** The associated data, as [decryptTransaction] recomputes it. *)
Definition recordAad (record : RecordOf S) : Buffer :=
  Buffer_from_utf8
    (metadataJson (as_string (id record)) (as_string (partyId record))
       (as_string (createdAt record)) (alg record) (mk_version record)).

Definition decryptTransaction
  : Exec (Entropy P) (DecryptInputOf S) (JSValue P) :=
  input <- getArguments ;;
  let record := dec_record input in
  let masterKeyHex := dec_masterKeyHex input in
  liftO (validateRecordShape record) ;;
  masterKey <- liftO (parseMasterKeyHex masterKeyHex) ;;
  let aad := recordAad record in
  wrap_nonce <- liftO (fromHex (dek_wrap_nonce record) "dek_wrap_nonce") ;;
  wrapped <- liftO (fromHex (dek_wrapped record) "dek_wrapped") ;;
  wrap_tag <- liftO (fromHex (dek_wrap_tag record) "dek_wrap_tag") ;;
  dek <- liftO (aesGcmDecrypt masterKey wrap_nonce wrapped wrap_tag (Some aad)) ;;
  if negb (length dek =? KEY_BYTES)%nat then throw "decryption failed"
  else
    nonce <- liftO (fromHex (payload_nonce record) "payload_nonce") ;;
    ct <- liftO (fromHex (payload_ct record) "payload_ct") ;;
    tag <- liftO (fromHex (payload_tag record) "payload_tag") ;;
    plaintext <- liftO (aesGcmDecrypt dek nonce ct tag (Some aad)) ;;
    match JSON_parse P (Buffer_toString_utf8 plaintext) with
    | Some value => ret value
    | None => throw "decryption failed"
    end.

End Envelope.

(** Running a call: the outcome, and the argument object and entropy after it. *)
Definition outcome {E I A} (r : Outcome A * Machine E I) : Outcome A := fst r.
Definition arguments_after {E I A} (r : Outcome A * Machine E I) : I :=
  arguments (snd r).
Definition entropy_after {E I A} (r : Outcome A * Machine E I) : E :=
  entropy (snd r).

(** A call of [encryptTransaction] on an argument object and an entropy. *)
Definition encrypt_call {S : Type} {F : StringField S} (P : Platform)
    (party : S) (payload : JSValue P) (masterKeyHex : string) (e : Entropy P)
  : Outcome TxSecureRecord * Machine (Entropy P) (EncryptInputOf S (JSValue P)) :=
  encryptTransaction P
    {| arguments := {| enc_partyId := party;
                       enc_payload := payload;
                       enc_masterKeyHex := masterKeyHex |};
       entropy := e |}.

(** A call of [decryptTransaction]. *)
Definition decrypt_call {S : Type} {F : StringField S} (P : Platform)
    (record : RecordOf S) (masterKeyHex : string) (e : Entropy P)
  : Outcome (JSValue P) * Machine (Entropy P) (DecryptInputOf S) :=
  decryptTransaction P
    {| arguments := {| dec_record := record; dec_masterKeyHex := masterKeyHex |};
       entropy := e |}.

(** ** A reference platform

    An executable platform on which calls can be evaluated: a fragment of the
    JavaScript values with their JSON text, a stream cipher with a 16-byte
    checksum in the place of AES-256-GCM, a linear congruential generator in the
    place of the random source, and a fixed clock.  It meets [PlatformLaws]. *)

Module Reference.

(** *** Values and [JSON.stringify] *)

#[local] Set Warnings "-register-all".

Inductive value : Type :=
| VUndefined
| VNull
| VBool (b : bool)
| VNumber (z : Z)
| VString (s : string)
| VArray (items : list value)
| VObject (members : list (string * value)).

Fixpoint join (sep : string) (parts : list string) : string :=
  match parts with
  | [] => ""
  | [p] => p
  | p :: rest => p ++ sep ++ join sep rest
  end.

(** SerializeJSONProperty: [undefined] has no text; as an array element it is
    written [null], as the value of a property the property is left out. *)
Fixpoint stringify (v : value) : option string :=
  match v with
  | VUndefined => None
  | VNull => Some "null"
  | VBool true => Some "true"
  | VBool false => Some "false"
  | VNumber z => Some (Number_toString z)
  | VString s => Some (QuoteJSONString s)
  | VArray items =>
      Some ("[" ++ join ","
              (map (fun x => match stringify x with
                             | Some s => s
                             | None => "null"
                             end) items) ++ "]")
  | VObject members =>
      Some ("{" ++ join ","
              (flat_map (fun kv => match stringify (snd kv) with
                                   | Some s => [property (fst kv) s]
                                   | None => []
                                   end) members) ++ "}")
  end.

(** *** [JSON.parse]: strings, integers, literals, arrays and objects *)

Definition is_ws (c : ascii) : bool :=
  let n := N_of_ascii c in
  ((n =? 32) || (n =? 9) || (n =? 10) || (n =? 13))%N.

Definition is_digit (c : ascii) : bool :=
  let n := N_of_ascii c in ((48 <=? n) && (n <=? 57))%N.

Fixpoint skip_ws (s : string) : string :=
  match s with
  | String c rest => if is_ws c then skip_ws rest else s
  | EmptyString => ""
  end.

(** The text [lit], then the rest. *)
Fixpoint expect (lit s : string) : option string :=
  match lit, s with
  | EmptyString, _ => Some s
  | String a lit', String b s' => if Ascii.eqb a b then expect lit' s' else None
  | String _ _, EmptyString => None
  end.

(** UTF-8 of a code point of the basic plane (surrogates are not decoded). *)
Definition utf8_of_code (n : N) : option string :=
  if (n <? 128)%N then Some (String (ascii_of_N n) "")
  else if (n <? 2048)%N then
    Some (String (ascii_of_N (192 + n / 64)) (String (ascii_of_N (128 + n mod 64)) ""))
  else if ((55296 <=? n) && (n <=? 57343))%N then None
  else
    Some (String (ascii_of_N (224 + n / 4096))
            (String (ascii_of_N (128 + (n / 64) mod 64))
               (String (ascii_of_N (128 + n mod 64)) ""))).

Definition unescape (e : ascii) : option ascii :=
  let n := N_of_ascii e in
  if (n =? 34)%N then Some dquote
  else if (n =? 92)%N then Some backslash
  else if (n =? 47)%N then Some "/"%char
  else if (n =? 98)%N then Some (ascii_of_N 8)
  else if (n =? 102)%N then Some (ascii_of_N 12)
  else if (n =? 110)%N then Some (ascii_of_N 10)
  else if (n =? 114)%N then Some (ascii_of_N 13)
  else if (n =? 116)%N then Some (ascii_of_N 9)
  else None.

(** The characters of a string literal after its opening quote, up to the
    closing quote, and the rest. *)
Fixpoint parse_string_body (s : string) : option (string * string) :=
  match s with
  | EmptyString => None
  | String c rest =>
      if Ascii.eqb c dquote then Some ("", rest)
      else if Ascii.eqb c backslash then
        match rest with
        | String e rest' =>
            if Ascii.eqb e "u"%char then
              match rest' with
              | String h1 (String h2 (String h3 (String h4 rest''))) =>
                  match hex_value h1, hex_value h2, hex_value h3, hex_value h4 with
                  | Some a, Some b, Some c', Some d =>
                      match utf8_of_code (4096 * a + 256 * b + 16 * c' + d),
                            parse_string_body rest'' with
                      | Some u, Some (str, after) => Some (u ++ str, after)
                      | _, _ => None
                      end
                  | _, _, _, _ => None
                  end
              | _ => None
              end
            else
              match unescape e, parse_string_body rest' with
              | Some x, Some (str, after) => Some (String x str, after)
              | _, _ => None
              end
        | EmptyString => None
        end
      else if (N_of_ascii c <? 32)%N then None
      else
        match parse_string_body rest with
        | Some (str, after) => Some (String c str, after)
        | None => None
        end
  end.

Fixpoint parse_digits (s : string) (acc : N) : N * string :=
  match s with
  | String c rest =>
      if is_digit c then parse_digits rest (10 * acc + (N_of_ascii c - 48))
      else (acc, s)
  | EmptyString => (acc, "")
  end.

Definition starts_fraction (s : string) : bool :=
  match s with
  | String c _ => Ascii.eqb c "."%char || Ascii.eqb c "e"%char || Ascii.eqb c "E"%char
  | EmptyString => false
  end.

(** An integer literal: no leading zero, no fraction and no exponent. *)
Definition parse_natural (s : string) : option (N * string) :=
  match s with
  | String c rest =>
      if Ascii.eqb c "0"%char
      then if starts_fraction rest
           then None
           else match rest with
                | String d _ => if is_digit d then None else Some (0%N, rest)
                | EmptyString => Some (0%N, rest)
                end
      else if is_digit c
           then let (n, after) := parse_digits s 0 in
                if starts_fraction after then None else Some (n, after)
           else None
  | EmptyString => None
  end.

Fixpoint parse_value (fuel : nat) (s : string) : option (value * string) :=
  match fuel with
  | O => None
  | S fuel' =>
      match skip_ws s with
      | EmptyString => None
      | String c rest =>
          if Ascii.eqb c "n"%char then option_map (pair VNull) (expect "ull" rest)
          else if Ascii.eqb c "t"%char
          then option_map (pair (VBool true)) (expect "rue" rest)
          else if Ascii.eqb c "f"%char
          then option_map (pair (VBool false)) (expect "alse" rest)
          else if Ascii.eqb c dquote
          then match parse_string_body rest with
               | Some (str, after) => Some (VString str, after)
               | None => None
               end
          else if Ascii.eqb c "-"%char
          then match parse_natural rest with
               | Some (n, after) => Some (VNumber (- Z.of_N n), after)
               | None => None
               end
          else if is_digit c
          then match parse_natural (String c rest) with
               | Some (n, after) => Some (VNumber (Z.of_N n), after)
               | None => None
               end
          else if Ascii.eqb c "["%char
          then match skip_ws rest with
               | String d after =>
                   if Ascii.eqb d "]"%char then Some (VArray [], after)
                   else match parse_elements fuel' rest with
                        | Some (items, after') => Some (VArray items, after')
                        | None => None
                        end
               | EmptyString => None
               end
          else if Ascii.eqb c "{"%char
          then match skip_ws rest with
               | String d after =>
                   if Ascii.eqb d "}"%char then Some (VObject [], after)
                   else match parse_members fuel' rest with
                        | Some (members, after') => Some (VObject members, after')
                        | None => None
                        end
               | EmptyString => None
               end
          else None
      end
  end
with parse_elements (fuel : nat) (s : string) : option (list value * string) :=
  match fuel with
  | O => None
  | S fuel' =>
      match parse_value fuel' s with
      | Some (v, after) =>
          match skip_ws after with
          | String c rest =>
              if Ascii.eqb c ","%char
              then match parse_elements fuel' rest with
                   | Some (vs, rest') => Some (v :: vs, rest')
                   | None => None
                   end
              else if Ascii.eqb c "]"%char then Some ([v], rest)
              else None
          | EmptyString => None
          end
      | None => None
      end
  end
with parse_members (fuel : nat) (s : string)
  : option (list (string * value) * string) :=
  match fuel with
  | O => None
  | S fuel' =>
      match skip_ws s with
      | String q body =>
          if Ascii.eqb q dquote
          then match parse_string_body body with
               | Some (key, after) =>
                   match skip_ws after with
                   | String colon after' =>
                       if Ascii.eqb colon ":"%char
                       then match parse_value fuel' after' with
                            | Some (v, after'') =>
                                match skip_ws after'' with
                                | String c rest =>
                                    if Ascii.eqb c ","%char
                                    then match parse_members fuel' rest with
                                         | Some (ms, rest') =>
                                             Some ((key, v) :: ms, rest')
                                         | None => None
                                         end
                                    else if Ascii.eqb c "}"%char
                                    then Some ([(key, v)], rest)
                                    else None
                                | EmptyString => None
                                end
                            | None => None
                            end
                       else None
                   | EmptyString => None
                   end
               | None => None
               end
          else None
      | EmptyString => None
      end
  end.

(** One value with nothing but white space after it. *)
Definition parse (s : string) : option value :=
  match parse_value (2 * String.length s + 2) s with
  | Some (v, after) =>
      match skip_ws after with
      | EmptyString => Some v
      | String _ _ => None
      end
  | None => None
  end.

(** *** The cipher: a key stream and a 16-byte checksum *)

Definition xor_ascii (a b : ascii) : ascii :=
  match a, b with
  | Ascii a0 a1 a2 a3 a4 a5 a6 a7, Ascii b0 b1 b2 b3 b4 b5 b6 b7 =>
      Ascii (xorb a0 b0) (xorb a1 b1) (xorb a2 b2) (xorb a3 b3)
            (xorb a4 b4) (xorb a5 b5) (xorb a6 b6) (xorb a7 b7)
  end.

Definition xor_byte (a b : byte) : byte :=
  byte_of_ascii (xor_ascii (ascii_of_byte a) (ascii_of_byte b)).

(** The key stream byte at a position. *)
Definition stream_byte (key nonce : Buffer) (i : nat) : byte :=
  byte_of_N (N_of_byte (nth (i mod KEY_BYTES) key x00)
             + 7 * N_of_byte (nth (i mod NONCE_BYTES) nonce x00)
             + N.of_nat i).

Fixpoint xor_stream (key nonce : Buffer) (i : nat) (data : Buffer) : Buffer :=
  match data with
  | [] => []
  | b :: rest => xor_byte b (stream_byte key nonce i) :: xor_stream key nonce (S i) rest
  end.

Definition absorb (acc : N) (data : Buffer) : N :=
  fold_left (fun h b => ((h * 257 + N_of_byte b + 1) mod 2 ^ 128)%N) data acc.

Fixpoint bytes_of_N (count : nat) (n : N) : Buffer :=
  match count with
  | O => []
  | S count' => byte_of_N (n mod 256) :: bytes_of_N count' (n / 256)
  end.

Definition checksum (key nonce aad ciphertext : Buffer) : Buffer :=
  bytes_of_N TAG_BYTES
    (absorb (absorb (N.of_nat (length aad)) (key ++ nonce ++ aad)%list) ciphertext).

Fixpoint buffer_eqb (a b : Buffer) : bool :=
  match a, b with
  | [], [] => true
  | x :: a', y :: b' => Byte.eqb x y && buffer_eqb a' b'
  | _, _ => false
  end.

Definition seal (key nonce aad plaintext : Buffer) : Buffer * Buffer :=
  let ciphertext := xor_stream key nonce 0 plaintext in
  (ciphertext, checksum key nonce aad ciphertext).

Definition open (key nonce aad ciphertext tag : Buffer) : option Buffer :=
  if buffer_eqb tag (checksum key nonce aad ciphertext)
  then Some (xor_stream key nonce 0 ciphertext)
  else None.

(** *** The random source and the clock *)

Definition next (seed : N) : N :=
  ((seed * 6364136223846793005 + 1442695040888963407) mod 2 ^ 64)%N.

Fixpoint random_bytes (n : nat) (seed : N) : Buffer * N :=
  match n with
  | O => ([], seed)
  | S n' =>
      let seed' := next seed in
      let (rest, seed'') := random_bytes n' seed' in
      (byte_of_N (seed' / 2 ^ 32) :: rest, seed'')
  end.

(** Thirty-two hex digits in the groups 8-4-4-4-12. *)
Definition random_uuid (seed : N) : string * N :=
  let (bytes, seed') := random_bytes 16 seed in
  (Buffer_toString_hex (firstn 4 bytes)
   ++ "-" ++ Buffer_toString_hex (firstn 2 (skipn 4 bytes))
   ++ "-" ++ Buffer_toString_hex (firstn 2 (skipn 6 bytes))
   ++ "-" ++ Buffer_toString_hex (firstn 2 (skipn 8 bytes))
   ++ "-" ++ Buffer_toString_hex (skipn 10 bytes), seed').

Definition now_iso (seed : N) : string * N := ("2026-01-15T09:30:00.000Z", seed).

(** A text matches a template when it has a digit wherever the template has
    a [d], and the template's character elsewhere. *)
Fixpoint matches_template (template s : string) : bool :=
  match template, s with
  | EmptyString, EmptyString => true
  | String t template', String c s' =>
      (if Ascii.eqb t "d"%char then is_digit c else Ascii.eqb t c)
      && matches_template template' s'
  | _, _ => false
  end.

(** Only the format of [toISOString] is read as a date. *)
Definition date_parse_isNaN (s : string) : bool :=
  negb (matches_template "dddd-dd-ddTdd:dd:dd.dddZ" s).

Definition platform : Platform :=
  {| JSValue := value;
     Entropy := N;
     randomBytes := random_bytes;
     randomUUID := random_uuid;
     Date_now_toISOString := now_iso;
     Date_parse_isNaN := date_parse_isNaN;
     JSON_stringify := fun v => Ok (stringify v);
     JSON_parse := parse;
     aes256gcm_encrypt := seal;
     aes256gcm_decrypt := open |}.

(** *** Sample inputs *)

Definition MASTER_KEY_HEX : string :=
  "0123456789abcdef0123456789abcdef0123456789abcdef0123456789abcdef".

Definition sample_payload : value :=
  VObject [("amount", VNumber 100); ("currency", VString "AED")].

Definition encrypt_sample (payload : value) (seed : N)
  : Outcome TxSecureRecord * Machine N (EncryptInput value) :=
  encrypt_call platform "party_123" payload MASTER_KEY_HEX seed.

Definition returned (o : Outcome TxSecureRecord) : TxSecureRecord :=
  match o with
  | Ok r => r
  | Throw _ => mkRecord "" "" "" "" "" "" "" "" "" "" 0
  end.

(** The record of the sample payload, evaluated. *)
Definition sample_record : TxSecureRecord :=
  Eval vm_compute in returned (outcome (encrypt_sample sample_payload 7)).

(** A payload with an [undefined] array element, and its record. *)
Definition sparse_payload : value := VArray [VUndefined].

Definition sparse_record : TxSecureRecord :=
  Eval vm_compute in returned (outcome (encrypt_sample sparse_payload 7)).

Definition decrypt_with (record : TxSecureRecord) (key : string) (seed : N)
  : Outcome value * Machine N DecryptInput :=
  decrypt_call platform record key seed.

(** The DEK that the sample call draws. *)
Definition sample_dek : Buffer :=
  Eval vm_compute in fst (random_bytes KEY_BYTES 7).

(** A five-byte value wrapped under the master key in the place of the DEK
    of the sample record. *)
Definition short_dek : Buffer := [x01; x02; x03; x04; x05].

Definition short_dek_record : TxSecureRecord :=
  Eval vm_compute in
    let wrapped :=
      seal (Buffer_from_hex MASTER_KEY_HEX)
        (Buffer_from_hex (dek_wrap_nonce sample_record))
        (recordAad sample_record) short_dek in
    {| id := id sample_record;
       partyId := partyId sample_record;
       createdAt := createdAt sample_record;
       payload_nonce := payload_nonce sample_record;
       payload_ct := payload_ct sample_record;
       payload_tag := payload_tag sample_record;
       dek_wrap_nonce := dek_wrap_nonce sample_record;
       dek_wrapped := Buffer_toString_hex (fst wrapped);
       dek_wrap_tag := Buffer_toString_hex (snd wrapped);
       alg := alg sample_record;
       mk_version := mk_version sample_record |}.

End Reference.

(** ** Vocabulary of the statements *)

(** *** Hex texts *)

Definition HEX_CHARS : list ascii := list_ascii_of_string "0123456789abcdefABCDEF".

Definition outside_hex (text : string) : Prop :=
  exists c, In c (list_ascii_of_string text) /\ ~ In c HEX_CHARS.

Definition hex_of_length (hex : string) (bytes : nat) : Prop :=
  isValidHex hex = true /\ String.length hex = bytes * 2.

Definition decoded_length (hex : string) : nat := length (Buffer_from_hex hex).

(** *** Records *)

(** The metadata that the associated data is computed from. *)
Definition metadata (record : TxSecureRecord)
  : string * string * string * string * Z :=
  (id record, partyId record, createdAt record, alg record, mk_version record).

(** The fields that carry bytes. *)
Definition binary_fields (record : TxSecureRecord) : list string :=
  [payload_nonce record; payload_ct record; payload_tag record;
   dek_wrap_nonce record; dek_wrapped record; dek_wrap_tag record].

(** Field by field equality of two record objects. *)
Definition same_fields (r1 r2 : TxSecureRecord) : Prop :=
  metadata r1 = metadata r2 /\ binary_fields r1 = binary_fields r2.

(** Two records with the same nonces, ciphertexts and tags. *)
Definition same_ciphertexts (r r' : TxSecureRecord) : Prop :=
  payload_nonce r' = payload_nonce r
  /\ payload_ct r' = payload_ct r
  /\ payload_tag r' = payload_tag r
  /\ dek_wrap_nonce r' = dek_wrap_nonce r
  /\ dek_wrapped r' = dek_wrapped r
  /\ dek_wrap_tag r' = dek_wrap_tag r.

Definition with_partyId (r : TxSecureRecord) (party : string) : TxSecureRecord :=
  {| id := id r; partyId := party; createdAt := createdAt r;
     payload_nonce := payload_nonce r; payload_ct := payload_ct r;
     payload_tag := payload_tag r; dek_wrap_nonce := dek_wrap_nonce r;
     dek_wrapped := dek_wrapped r; dek_wrap_tag := dek_wrap_tag r;
     alg := alg r; mk_version := mk_version r |}.

Definition with_payload_nonce (r : TxSecureRecord) (hex : string) : TxSecureRecord :=
  {| id := id r; partyId := partyId r; createdAt := createdAt r;
     payload_nonce := hex; payload_ct := payload_ct r;
     payload_tag := payload_tag r; dek_wrap_nonce := dek_wrap_nonce r;
     dek_wrapped := dek_wrapped r; dek_wrap_tag := dek_wrap_tag r;
     alg := alg r; mk_version := mk_version r |}.

Definition with_payload_ct (r : TxSecureRecord) (hex : string) : TxSecureRecord :=
  {| id := id r; partyId := partyId r; createdAt := createdAt r;
     payload_nonce := payload_nonce r; payload_ct := hex;
     payload_tag := payload_tag r; dek_wrap_nonce := dek_wrap_nonce r;
     dek_wrapped := dek_wrapped r; dek_wrap_tag := dek_wrap_tag r;
     alg := alg r; mk_version := mk_version r |}.

(** A hex text with its first byte replaced by [ff]. *)
Definition tamper_first_byte (hex : string) : string :=
  "ff" ++ substring 2 (String.length hex - 2) hex.

(** *** The shape of a record *)

Definition well_shaped (P : Platform) (record : TxSecureRecord) : Prop :=
  id record <> "" /\ partyId record <> "" /\ createdAt record <> ""
  /\ Date_parse_isNaN P (createdAt record) = false
  /\ alg record = SUPPORTED_ALG
  /\ mk_version record = 1%Z
  /\ hex_of_length (payload_nonce record) NONCE_BYTES
  /\ hex_of_length (payload_tag record) TAG_BYTES
  /\ hex_of_length (dek_wrap_nonce record) NONCE_BYTES
  /\ hex_of_length (dek_wrap_tag record) TAG_BYTES
  /\ isValidHex (payload_ct record) = true
  /\ isValidHex (dek_wrapped record) = true.

(** The error of a hex field that must decode to a given number of bytes. *)
Definition hex_field_error (field hex : string) (bytes : nat) (msg : string)
  : Prop :=
  (isValidHex hex = false /\ msg = field ++ ": invalid hex")
  \/ (isValidHex hex = true /\ decoded_length hex <> bytes
      /\ msg = field ++ ": invalid length").

(** A message of the validator, with the defect of the record that it names. *)
Definition shape_error (P : Platform) (record : TxSecureRecord) (msg : string)
  : Prop :=
  (id record = "" /\ msg = "id is required")
  \/ (partyId record = "" /\ msg = "partyId is required")
  \/ (createdAt record = "" /\ msg = "createdAt is required")
  \/ (Date_parse_isNaN P (createdAt record) = true
      /\ msg = "createdAt: invalid format")
  \/ (alg record <> "AES-256-GCM" /\ msg = "unsupported algorithm")
  \/ (mk_version record <> 1%Z /\ msg = "unsupported master key version")
  \/ hex_field_error "payload_nonce" (payload_nonce record) 12 msg
  \/ hex_field_error "payload_tag" (payload_tag record) 16 msg
  \/ hex_field_error "dek_wrap_nonce" (dek_wrap_nonce record) 12 msg
  \/ hex_field_error "dek_wrap_tag" (dek_wrap_tag record) 16 msg
  \/ (isValidHex (payload_ct record) = false /\ msg = "payload_ct: invalid hex")
  \/ (isValidHex (dek_wrapped record) = false /\ msg = "dek_wrapped: invalid hex").

(** *** The checks on a record object

    The object that a caller hands to [decryptTransaction] in the place of a
    record: [id], [partyId] and [createdAt] are any value, the other fields
    are of their declared types. *)

(** A record of the declared type, as an object. *)
Definition object_of (r : TxSecureRecord) : RecordOf Dynamic :=
  {| id := IsString (id r); partyId := IsString (partyId r);
     createdAt := IsString (createdAt r);
     payload_nonce := payload_nonce r; payload_ct := payload_ct r;
     payload_tag := payload_tag r; dek_wrap_nonce := dek_wrap_nonce r;
     dek_wrapped := dek_wrapped r; dek_wrap_tag := dek_wrap_tag r;
     alg := alg r; mk_version := mk_version r |}.

(** An object with its [id] left out. *)
Definition without_id (record : RecordOf Dynamic) : RecordOf Dynamic :=
  {| id := Undefined; partyId := partyId record; createdAt := createdAt record;
     payload_nonce := payload_nonce record; payload_ct := payload_ct record;
     payload_tag := payload_tag record;
     dek_wrap_nonce := dek_wrap_nonce record;
     dek_wrapped := dek_wrapped record; dek_wrap_tag := dek_wrap_tag record;
     alg := alg record; mk_version := mk_version record |}.

(** The structural checks, in the order in which the specification lists
    them. *)
Inductive ShapeCheck : Type :=
| IdRequired
| PartyIdRequired
| CreatedAtRequired
| CreatedAtFormat
| AlgSupported
| VersionSupported
| PayloadNonceHex
| PayloadTagHex
| WrapNonceHex
| WrapTagHex
| PayloadCtHex
| WrappedDekHex.

Definition SHAPE_CHECKS : list ShapeCheck :=
  [IdRequired; PartyIdRequired; CreatedAtRequired; CreatedAtFormat;
   AlgSupported; VersionSupported;
   PayloadNonceHex; PayloadTagHex; WrapNonceHex; WrapTagHex;
   PayloadCtHex; WrappedDekHex].

(** A required field is present: it is there, it is a string, and the string
    is not empty. *)
Definition present (x : Dynamic) : bool :=
  match x with
  | IsString (String _ _) => true
  | _ => false
  end.

(** The field is a string that the clock parses as a date. *)
Definition parses (P : Platform) (x : Dynamic) : bool :=
  match x with
  | IsString s => negb (Date_parse_isNaN P s)
  | _ => false
  end.

(** The text is hex and decodes to the given number of bytes. *)
Definition hex_bytes (hex : string) (bytes : nat) : bool :=
  isValidHex hex && (String.length hex =? bytes * 2)%nat.

(** What each check asks of the object. *)
Definition meets (P : Platform) (record : RecordOf Dynamic) (check : ShapeCheck)
  : bool :=
  match check with
  | IdRequired => present (id record)
  | PartyIdRequired => present (partyId record)
  | CreatedAtRequired => present (createdAt record)
  | CreatedAtFormat => parses P (createdAt record)
  | AlgSupported => (alg record =? SUPPORTED_ALG)%string
  | VersionSupported => (mk_version record =? 1)%Z
  | PayloadNonceHex => hex_bytes (payload_nonce record) NONCE_BYTES
  | PayloadTagHex => hex_bytes (payload_tag record) TAG_BYTES
  | WrapNonceHex => hex_bytes (dek_wrap_nonce record) NONCE_BYTES
  | WrapTagHex => hex_bytes (dek_wrap_tag record) TAG_BYTES
  | PayloadCtHex => isValidHex (payload_ct record)
  | WrappedDekHex => isValidHex (dek_wrapped record)
  end.

(** The error of a hex field of a given length: the encoding when the text is
    not hex, the length otherwise. *)
Definition hex_message (field hex : string) : string :=
  if isValidHex hex then field ++ ": invalid length"
  else field ++ ": invalid hex".

(** The error that names the field of a check that the object does not meet. *)
Definition shape_message (record : RecordOf Dynamic) (check : ShapeCheck)
  : string :=
  match check with
  | IdRequired => "id is required"
  | PartyIdRequired => "partyId is required"
  | CreatedAtRequired => "createdAt is required"
  | CreatedAtFormat => "createdAt: invalid format"
  | AlgSupported => "unsupported algorithm"
  | VersionSupported => "unsupported master key version"
  | PayloadNonceHex => hex_message "payload_nonce" (payload_nonce record)
  | PayloadTagHex => hex_message "payload_tag" (payload_tag record)
  | WrapNonceHex => hex_message "dek_wrap_nonce" (dek_wrap_nonce record)
  | WrapTagHex => hex_message "dek_wrap_tag" (dek_wrap_tag record)
  | PayloadCtHex => "payload_ct: invalid hex"
  | WrappedDekHex => "dek_wrapped: invalid hex"
  end.

(** [check] is the first check of the list that the object does not meet:
    the object meets every check listed before it, and does not meet it. *)
Definition first_unmet_check (P : Platform) (record : RecordOf Dynamic)
    (check : ShapeCheck) : Prop :=
  exists before after,
    SHAPE_CHECKS = (before ++ check :: after)%list
    /\ forallb (meets P record) before = true
    /\ meets P record check = false.

(** The same, by a search of the list. *)
Definition first_unmet (P : Platform) (record : RecordOf Dynamic)
  : option ShapeCheck :=
  find (fun check => negb (meets P record check)) SHAPE_CHECKS.

(** The sample record with a [payload_nonce] of one byte. *)
Definition one_byte_nonce : TxSecureRecord :=
  Eval vm_compute in with_payload_nonce Reference.sample_record "00".

(** *** Messages *)

Definition DECRYPTION_FAILED : string := "decryption failed".

Definition NOT_SERIALIZABLE : string := "payload is not JSON-serializable".

(** The errors of the AEAD wrapper's own length checks. *)
Definition length_error (msg : string) : Prop :=
  msg = "key: invalid length" \/ msg = "nonce: invalid length"
  \/ msg = "tag: invalid length".

(** *** The layers of [decryptTransaction] *)

(** The two AEAD layers of a record, under a key and an associated data. *)
Definition wrap_layer (P : Platform) (record : TxSecureRecord)
    (masterKey aad : Buffer) : option Buffer :=
  aes256gcm_decrypt P masterKey
    (Buffer_from_hex (dek_wrap_nonce record)) aad
    (Buffer_from_hex (dek_wrapped record))
    (Buffer_from_hex (dek_wrap_tag record)).

Definition payload_layer (P : Platform) (record : TxSecureRecord)
    (dek aad : Buffer) : option Buffer :=
  aes256gcm_decrypt P dek
    (Buffer_from_hex (payload_nonce record)) aad
    (Buffer_from_hex (payload_ct record))
    (Buffer_from_hex (payload_tag record)).

(** What [decryptTransaction] computes once the shape of the record and the
    master key are accepted. *)
Definition open_layers (P : Platform) (record : TxSecureRecord) (masterKey : Buffer)
  : Outcome (JSValue P) :=
  match wrap_layer P record masterKey (recordAad record) with
  | None => Throw DECRYPTION_FAILED
  | Some dek =>
      if (length dek =? KEY_BYTES)%nat then
        match payload_layer P record dek (recordAad record) with
        | None => Throw DECRYPTION_FAILED
        | Some plaintext =>
            match JSON_parse P (Buffer_toString_utf8 plaintext) with
            | Some value => Ok value
            | None => Throw DECRYPTION_FAILED
            end
        end
      else Throw DECRYPTION_FAILED
  end.

(** *** The draws of [encryptTransaction] *)

(** What one successful call of [encryptTransaction] draws, in its order. *)
Record Draws (P : Platform) : Type := mkDraws {
  drawn_dek : Buffer;
  drawn_id : string;
  drawn_createdAt : string;
  drawn_payload_nonce : Buffer;
  drawn_wrap_nonce : Buffer;
  entropy_left : Entropy P
}.

Arguments drawn_dek {P} _.
Arguments drawn_id {P} _.
Arguments drawn_createdAt {P} _.
Arguments drawn_payload_nonce {P} _.
Arguments drawn_wrap_nonce {P} _.
Arguments entropy_left {P} _.

Definition draws (P : Platform) (e : Entropy P) : Draws P :=
  let r1 := randomBytes P KEY_BYTES e in
  let r2 := randomUUID P (snd r1) in
  let r3 := Date_now_toISOString P (snd r2) in
  let r4 := randomBytes P NONCE_BYTES (snd r3) in
  let r5 := randomBytes P NONCE_BYTES (snd r4) in
  {| drawn_dek := fst r1;
     drawn_id := fst r2;
     drawn_createdAt := fst r3;
     drawn_payload_nonce := fst r4;
     drawn_wrap_nonce := fst r5;
     entropy_left := snd r5 |}.

(** The record assembled from a party, the JSON text of a payload, a master
    key and the draws. *)
Definition sealed_record (P : Platform) (partyId payloadJson : string)
    (masterKey : Buffer) (d : Draws P) : TxSecureRecord :=
  let aad :=
    Buffer_from_utf8
      (metadataJson (drawn_id d) partyId (drawn_createdAt d) SUPPORTED_ALG 1) in
  let payloadEncrypted :=
    aes256gcm_encrypt P (drawn_dek d) (drawn_payload_nonce d) aad
      (Buffer_from_utf8 payloadJson) in
  let wrappedDek :=
    aes256gcm_encrypt P masterKey (drawn_wrap_nonce d) aad (drawn_dek d) in
  {| id := drawn_id d;
     partyId := partyId;
     createdAt := drawn_createdAt d;
     payload_nonce := Buffer_toString_hex (drawn_payload_nonce d);
     payload_ct := Buffer_toString_hex (fst payloadEncrypted);
     payload_tag := Buffer_toString_hex (snd payloadEncrypted);
     dek_wrap_nonce := Buffer_toString_hex (drawn_wrap_nonce d);
     dek_wrapped := Buffer_toString_hex (fst wrappedDek);
     dek_wrap_tag := Buffer_toString_hex (snd wrappedDek);
     alg := SUPPORTED_ALG;
     mk_version := 1 |}.

(** *** Frames *)

(** A computation that leaves the argument object as it found it. *)
Definition keeps_arguments {E I A} (c : Exec E I A) : Prop :=
  forall m, arguments (snd (c m)) = arguments m.

(** A computation that changes nothing, and whose outcome depends on the
    argument object alone. *)
Definition reads_only {E I A} (c : Exec E I A) : Prop :=
  forall m,
    snd (c m) = m
    /\ forall m', arguments m' = arguments m -> fst (c m') = fst (c m).

(** Two computations, on argument objects of different types, that run alike:
    from the same entropy they have the same outcome and leave the same
    entropy. *)
Definition runs_alike {E I I' A} (c : Exec E I A) (c' : Exec E I' A) : Prop :=
  forall m m',
    entropy m = entropy m' ->
    outcome (c m) = outcome (c' m')
    /\ entropy_after (c m) = entropy_after (c' m').

(** ** The API server: the routes over the store of records

    The server keeps the records in a [Map] keyed by their id, reads the master
    key from the environment at each call, and answers with a status code and
    a body.  No handler awaits between its statements, so a request is one
    step on the state of the server. *)

(** [Map<string, TxSecureRecord>]: the entries in insertion order, one per
    key. *)
Definition RecordMap : Type := list (string * TxSecureRecord).

(** [store.get(key)] *)
Fixpoint Map_get (key : string) (m : RecordMap) : option TxSecureRecord :=
  match m with
  | [] => None
  | (k, v) :: rest => if (k =? key)%string then Some v else Map_get key rest
  end.

(** [store.set(key, value)]: the value of an existing key is replaced in its
    place, a new key goes to the end. *)
Fixpoint Map_set (key : string) (value : TxSecureRecord) (m : RecordMap)
  : RecordMap :=
  match m with
  | [] => [(key, value)]
  | (k, v) :: rest =>
      if (k =? key)%string then (key, value) :: rest
      else (k, v) :: Map_set key value rest
  end.

(** The keys of a map, in order. *)
Definition Map_keys (m : RecordMap) : list string := map fst m.

(** What a [catch] clause receives: an [Error] with its message, or any other
    value. *)
Inductive Thrown : Type :=
| ErrorObject (message : string)
| OtherValue.

Definition normalizeError (err : Thrown) : string :=
  match err with
  | ErrorObject message => message
  | OtherValue => "Unknown error"
  end.

(** [process.env.MASTER_KEY_HEX] is a string or is not set. *)
Definition getMasterKeyHex (env_MASTER_KEY_HEX : option string) : Outcome string :=
  match env_MASTER_KEY_HEX with
  | Some key => if falsy key then Throw "MASTER_KEY_HEX is not set" else Ok key
  | None => Throw "MASTER_KEY_HEX is not set"
  end.

(** The type [EncryptBody]. *)
Record EncryptBody (V : Type) : Type := mkEncryptBody {
  body_partyId : string;
  body_payload : V
}.

Arguments mkEncryptBody {V} _ _.
Arguments body_partyId {V} _.
Arguments body_payload {V} _.

(** The property [partyId] of a request body, as the guard reads it. *)
Inductive PartyField : Type :=
| PartyAbsent
| PartyNotString
| PartyString (s : string).

(** A request body, as the guard reads it: a value that is falsy or not an
    object, or an object with its [partyId] and, when it has the property, its
    [payload]. *)
Inductive RequestBody (V : Type) : Type :=
| BodyNotObject
| BodyObject (partyId : PartyField) (payload : option V).

Arguments BodyNotObject {V}.
Arguments BodyObject {V} _ _.

(** The type guard [body is EncryptBody]: the narrowed body when it holds. *)
Definition isRecordInput {V} (body : RequestBody V) : option (EncryptBody V) :=
  match body with
  | BodyNotObject => None
  | BodyObject (PartyString s) (Some payload) =>
      Some {| body_partyId := s; body_payload := payload |}
  | BodyObject _ _ => None
  end.

(** The body of a reply. *)
Inductive ReplyBody (V : Type) : Type :=
| StatusBody (status : string)
| ErrorBody (error : string)
| RecordBody (record : TxSecureRecord)
| PayloadBody (id partyId : string) (payload : V).

Arguments StatusBody {V} _.
Arguments ErrorBody {V} _.
Arguments RecordBody {V} _.
Arguments PayloadBody {V} _ _ _.

Record Reply (V : Type) : Type := mkReply {
  status : nat;
  body : ReplyBody V
}.

Arguments mkReply {V} _ _.
Arguments status {V} _.
Arguments body {V} _.

(** The state of the server: the store, and the random source and clock. *)
Record Server (E : Type) : Type := mkServer {
  store : RecordMap;
  server_entropy : E
}.

Arguments mkServer {E} _ _.
Arguments store {E} _.
Arguments server_entropy {E} _.

Definition INVALID_BODY : string :=
  "Invalid body. Expected { partyId: string, payload: unknown }".

Definition NOT_FOUND : string := "Record not found".

Section Routes.

Variable P : Platform.

(** The value of [process.env.MASTER_KEY_HEX]. *)
Variable env_MASTER_KEY_HEX : option string.

(** [GET /] *)
Definition get_root (srv : Server (Entropy P))
  : Reply (JSValue P) * Server (Entropy P) :=
  ({| status := 200; body := StatusBody "api running" |}, srv).

(** [POST /tx/encrypt] *)
Definition post_tx_encrypt (request_body : RequestBody (JSValue P))
    (srv : Server (Entropy P)) : Reply (JSValue P) * Server (Entropy P) :=
  match isRecordInput request_body with
  | None => ({| status := 400; body := ErrorBody INVALID_BODY |}, srv)
  | Some input =>
      match getMasterKeyHex env_MASTER_KEY_HEX with
      | Throw message =>
          ({| status := 400;
              body := ErrorBody (normalizeError (ErrorObject message)) |}, srv)
      | Ok masterKeyHex =>
          let call :=
            encryptTransaction P
              {| arguments := {| enc_partyId := body_partyId input;
                                 enc_payload := body_payload input;
                                 enc_masterKeyHex := masterKeyHex |};
                 entropy := server_entropy srv |} in
          match outcome call with
          | Ok record =>
              ({| status := 201; body := RecordBody record |},
               {| store := Map_set (id record) record (store srv);
                  server_entropy := entropy_after call |})
          | Throw message =>
              ({| status := 400;
                  body := ErrorBody (normalizeError (ErrorObject message)) |},
               {| store := store srv; server_entropy := entropy_after call |})
          end
      end
  end.

(** [GET /tx/:id] *)
Definition get_tx (params_id : string) (srv : Server (Entropy P))
  : Reply (JSValue P) * Server (Entropy P) :=
  match Map_get params_id (store srv) with
  | None => ({| status := 404; body := ErrorBody NOT_FOUND |}, srv)
  | Some record => ({| status := 200; body := RecordBody record |}, srv)
  end.

(** [POST /tx/:id/decrypt].  The record handed to [decryptTransaction] is the
    object that the store holds: what the call leaves of it is what the store
    holds afterwards, and what the reply reads the id and the party from. *)
Definition post_tx_decrypt (params_id : string) (srv : Server (Entropy P))
  : Reply (JSValue P) * Server (Entropy P) :=
  match Map_get params_id (store srv) with
  | None => ({| status := 404; body := ErrorBody NOT_FOUND |}, srv)
  | Some record =>
      match getMasterKeyHex env_MASTER_KEY_HEX with
      | Throw message =>
          ({| status := 400;
              body := ErrorBody (normalizeError (ErrorObject message)) |}, srv)
      | Ok masterKeyHex =>
          let call :=
            decryptTransaction P
              {| arguments := {| dec_record := record;
                                 dec_masterKeyHex := masterKeyHex |};
                 entropy := server_entropy srv |} in
          let record' := dec_record (arguments_after call) in
          let srv' :=
            {| store := Map_set params_id record' (store srv);
               server_entropy := entropy_after call |} in
          match outcome call with
          | Ok payload =>
              ({| status := 200;
                  body := PayloadBody (id record') (partyId record') payload |},
               srv')
          | Throw message =>
              ({| status := 400;
                  body := ErrorBody (normalizeError (ErrorObject message)) |},
               srv')
          end
      end
  end.

(** A request to one of the routes. *)
Inductive Request : Type :=
| GetRoot
| PostTxEncrypt (request_body : RequestBody (JSValue P))
| GetTx (params_id : string)
| PostTxDecrypt (params_id : string).

Definition handle (request : Request) (srv : Server (Entropy P))
  : Reply (JSValue P) * Server (Entropy P) :=
  match request with
  | GetRoot => get_root srv
  | PostTxEncrypt request_body => post_tx_encrypt request_body srv
  | GetTx params_id => get_tx params_id srv
  | PostTxDecrypt params_id => post_tx_decrypt params_id srv
  end.

(** The state after a sequence of requests. *)
Fixpoint serve (requests : list Request) (srv : Server (Entropy P))
  : Server (Entropy P) :=
  match requests with
  | [] => srv
  | request :: rest => serve rest (snd (handle request srv))
  end.

(** The server as it starts: [new Map()]. *)
Definition start (e : Entropy P) : Server (Entropy P) :=
  {| store := []; server_entropy := e |}.

End Routes.

Arguments GetRoot {P}.
Arguments GetTx {P} _.
Arguments PostTxDecrypt {P} _.
Arguments PostTxEncrypt {P} _.

(** *** Vocabulary of the statements on the server *)

(** A well-formed request body. *)
Definition encrypt_body {V} (party : string) (payload : V) : RequestBody V :=
  BodyObject (PartyString party) (Some payload).

(** A record made by [encryptTransaction] under a master key. *)
Definition sealed_under (P : Platform) (masterKeyHex : string)
    (record : TxSecureRecord) : Prop :=
  exists party json e,
    party <> "" /\ json <> ""
    /\ record = sealed_record P party json (Buffer_from_hex masterKeyHex)
                 (draws P e).

(** What the store of a running server satisfies: every record is stored
    under its own id, and was sealed under the master key of the environment,
    a key of 64 hex digits. *)
Definition store_ok (P : Platform) (env_MASTER_KEY_HEX : option string)
    (m : RecordMap) : Prop :=
  forall key record,
    Map_get key m = Some record ->
    id record = key
    /\ exists masterKeyHex,
         env_MASTER_KEY_HEX = Some masterKeyHex
         /\ hex_of_length masterKeyHex KEY_BYTES
         /\ sealed_under P masterKeyHex record.

(** *** Vocabulary of the statements on the case of hex digits *)

(** A lowercase hex letter in upper case; any other character as it is. *)
Definition upper_hex_char (c : ascii) : ascii :=
  let n := N_of_ascii c in
  if ((97 <=? n) && (n <=? 102))%N then ascii_of_N (n - 32) else c.

Fixpoint upper_hex (s : string) : string :=
  match s with
  | EmptyString => ""
  | String c rest => String (upper_hex_char c) (upper_hex rest)
  end.

(** A record with its six binary fields rewritten. *)
Definition map_binary_fields (f : string -> string) (r : TxSecureRecord)
  : TxSecureRecord :=
  {| id := id r; partyId := partyId r; createdAt := createdAt r;
     payload_nonce := f (payload_nonce r); payload_ct := f (payload_ct r);
     payload_tag := f (payload_tag r);
     dek_wrap_nonce := f (dek_wrap_nonce r); dek_wrapped := f (dek_wrapped r);
     dek_wrap_tag := f (dek_wrap_tag r);
     alg := alg r; mk_version := mk_version r |}.

(** The errors of [parseMasterKeyHex]. *)
Definition key_error (msg : string) : Prop :=
  msg = "master key: invalid hex" \/ msg = "master key: invalid length".

(** A call of [aesGcmEncrypt] from a state of the random source. *)
Definition run_aesGcmEncrypt (P : Platform) (key plaintext : Buffer)
    (aad : option Buffer) (e : Entropy P)
  : Outcome Sealed * Machine (Entropy P) unit :=
  aesGcmEncrypt P key plaintext aad {| arguments := tt; entropy := e |}.

(** The error of [getMasterKeyHex]. *)
Definition KEY_NOT_SET : string := "MASTER_KEY_HEX is not set".

(** The answers of the decrypt route on a server whose records were all made
    by the encrypt route: not found, the payload with the id asked for, or the
    one opaque failure. *)
Definition answers_decrypt (P : Platform) (env_MASTER_KEY_HEX : option string)
    (srv : Server (Entropy P)) (params_id : string) : Prop :=
  (Map_get params_id (store srv) = None
   /\ fst (post_tx_decrypt P env_MASTER_KEY_HEX params_id srv)
      = {| status := 404; body := ErrorBody NOT_FOUND |})
  \/ (exists record payload,
         Map_get params_id (store srv) = Some record
         /\ fst (post_tx_decrypt P env_MASTER_KEY_HEX params_id srv)
            = {| status := 200;
                 body := PayloadBody params_id (partyId record) payload |})
  \/ fst (post_tx_decrypt P env_MASTER_KEY_HEX params_id srv)
     = {| status := 400; body := ErrorBody "decryption failed" |}.

(** *** A sample run of the server on the reference platform *)

Definition sample_env : option string := Some Reference.MASTER_KEY_HEX.

Definition sample_body : RequestBody (JSValue Reference.platform) :=
  encrypt_body "party_123" Reference.sample_payload.

Definition sample_request : Request Reference.platform :=
  @PostTxEncrypt Reference.platform sample_body.

Definition sample_server : Server N :=
  serve Reference.platform sample_env [sample_request]
    (start Reference.platform 7%N).

(** * Properties *)

(** ** The hex codec *)

Lemma string_pairs_ind (Q : string -> Prop) :
  Q "" ->
  (forall a, Q (String a "")) ->
  (forall a b s, Q s -> Q (String a (String b s))) ->
  forall s, Q s.
Proof.
  intros H0 H1 H2.
  fix IH 1.
  intros [|a [|b s]].
  - exact H0.
  - apply H1.
  - apply H2, IH.
Qed.

Lemma hex_pair (b : byte) :
  hex_value (hex_digit (N_of_byte b / 16)) = Some (N_of_byte b / 16)%N
  /\ hex_value (hex_digit (N_of_byte b mod 16)) = Some (N_of_byte b mod 16)%N
  /\ byte_of_N (16 * (N_of_byte b / 16) + N_of_byte b mod 16) = b.
Proof. destruct b; vm_compute; repeat split. Qed.

Lemma from_hex_toString_hex (buf : Buffer) :
  Buffer_from_hex (Buffer_toString_hex buf) = buf.
Proof.
  induction buf as [|b rest IH]; [reflexivity|].
  cbn [Buffer_toString_hex Buffer_from_hex].
  destruct (hex_pair b) as (Hhi & Hlo & Hb).
  now rewrite Hhi, Hlo, Hb, IH.
Qed.

Lemma length_toString_hex (buf : Buffer) :
  String.length (Buffer_toString_hex buf) = 2 * length buf.
Proof.
  induction buf as [|b rest IH]; [reflexivity|].
  cbn [Buffer_toString_hex String.length length]. rewrite IH. lia.
Qed.

Lemma lower_hex_is_hex (c : ascii) : lower_hex_class c = true -> hex_class c = true.
Proof.
  unfold lower_hex_class, hex_class. cbv zeta. intros ->. reflexivity.
Qed.

Lemma all_chars_weaken (f g : ascii -> bool) (s : string) :
  (forall c, f c = true -> g c = true) ->
  all_chars f s = true -> all_chars g s = true.
Proof.
  intros Hfg. induction s as [|c s IH]; [reflexivity|].
  cbn. rewrite !andb_true_iff. intros [Hc Hs]. auto.
Qed.

Lemma hex_digit_lower (b : byte) :
  lower_hex_class (hex_digit (N_of_byte b / 16)) = true
  /\ lower_hex_class (hex_digit (N_of_byte b mod 16)) = true.
Proof. destruct b; vm_compute; split; reflexivity. Qed.

Lemma toString_hex_lower (buf : Buffer) :
  all_chars lower_hex_class (Buffer_toString_hex buf) = true.
Proof.
  induction buf as [|b rest IH]; [reflexivity|].
  cbn [Buffer_toString_hex all_chars].
  destruct (hex_digit_lower b) as [-> ->]. exact IH.
Qed.

Lemma isValidHex_toString_hex (buf : Buffer) :
  buf <> [] -> isValidHex (Buffer_toString_hex buf) = true.
Proof.
  intros Hne. unfold isValidHex. apply andb_true_iff. split.
  - rewrite length_toString_hex. apply Nat.eqb_eq.
    rewrite Nat.mul_comm. apply Nat.Div0.mod_mul.
  - destruct buf as [|b rest]; [congruence|].
    pose proof (toString_hex_lower (b :: rest)) as Hl.
    apply (all_chars_weaken lower_hex_class hex_class) in Hl;
      [|exact lower_hex_is_hex].
    exact Hl.
Qed.

Lemma hex_class_value (c : ascii) :
  hex_class c = true -> exists n, hex_value c = Some n.
Proof.
  unfold hex_class, hex_value. cbv zeta.
  destruct ((48 <=? N_of_ascii c) && (N_of_ascii c <=? 57))%N; [eauto|].
  destruct ((97 <=? N_of_ascii c) && (N_of_ascii c <=? 102))%N; [eauto|].
  destruct ((65 <=? N_of_ascii c) && (N_of_ascii c <=? 70))%N; [eauto|].
  discriminate.
Qed.

Lemma mod2_SS (n : nat) : S (S n) mod 2 = n mod 2.
Proof.
  replace (S (S n)) with (n + 1 * 2) by lia. apply Nat.Div0.mod_add.
Qed.

Lemma length_from_hex (hex : string) :
  all_chars hex_class hex = true ->
  String.length hex mod 2 = 0 ->
  2 * length (Buffer_from_hex hex) = String.length hex.
Proof.
  induction hex as [|a|a b s IH] using string_pairs_ind; intros Hall Hlen.
  - reflexivity.
  - discriminate.
  - cbn [all_chars] in Hall. rewrite !andb_true_iff in Hall.
    destruct Hall as (Ha & Hb & Hs).
    cbn [String.length] in Hlen |- *. rewrite mod2_SS in Hlen.
    destruct (hex_class_value a Ha) as [x Hx].
    destruct (hex_class_value b Hb) as [y Hy].
    cbn [Buffer_from_hex]. rewrite Hx, Hy. cbn [length].
    specialize (IH Hs Hlen). lia.
Qed.

Lemma isValidHex_length (hex : string) :
  isValidHex hex = true -> 2 * length (Buffer_from_hex hex) = String.length hex.
Proof.
  unfold isValidHex. rewrite andb_true_iff, Nat.eqb_eq. intros [Hlen Hre].
  apply length_from_hex; [|exact Hlen].
  destruct hex; [discriminate|exact Hre].
Qed.

Lemma hex_class_chars (c : ascii) : hex_class c = true <-> In c HEX_CHARS.
Proof.
  destruct c as [[] [] [] [] [] [] [] []];
    (split; [ intro H; first [ discriminate H | cbn; tauto ]
            | intro H; first [ reflexivity
                             | cbn in H; exfalso;
                               repeat (destruct H as [H|H]; [discriminate H|]); exact H ] ]).
Qed.

Lemma all_chars_forall (f : ascii -> bool) (s : string) :
  all_chars f s = true <-> forall c, In c (list_ascii_of_string s) -> f c = true.
Proof.
  induction s as [|a s IH]; cbn.
  - split; [intros _ c []|reflexivity].
  - rewrite andb_true_iff, IH. split.
    + intros [Ha Hs] c [<-|Hc]; auto.
    + intros H. split; [apply H; now left|intros c Hc; apply H; now right].
Qed.

Lemma all_chars_false (f : ascii -> bool) (s : string) :
  all_chars f s = false -> exists c, In c (list_ascii_of_string s) /\ f c = false.
Proof.
  induction s as [|a s IH]; cbn; [discriminate|].
  destruct (f a) eqn:Ha; cbn.
  - intros H. destruct (IH H) as (c & Hc & Hf). exists c. auto.
  - intros _. exists a. auto.
Qed.

Lemma isValidHex_false_iff (text : string) :
  isValidHex text = false <->
  text = "" \/ String.length text mod 2 = 1 \/ outside_hex text.
Proof.
  unfold isValidHex. rewrite andb_false_iff, Nat.eqb_neq. split.
  - intros [Hodd|Hre].
    + right; left. pose proof (Nat.mod_upper_bound (String.length text) 2). lia.
    + destruct text as [|a s]; [now left|]. right; right.
      cbn [re_hex_test] in Hre. apply all_chars_false in Hre.
      destruct Hre as (c & Hc & Hf). exists c. split; [exact Hc|].
      rewrite <- hex_class_chars. congruence.
  - intros [->|[Hodd|(c & Hc & Hout)]].
    + now right.
    + left. lia.
    + right. destruct text as [|a s]; [reflexivity|]. cbn [re_hex_test].
      destruct (all_chars hex_class (String a s)) eqn:Hall; [|reflexivity].
      exfalso. apply Hout, hex_class_chars.
      now apply (proj1 (all_chars_forall hex_class (String a s)) Hall).
Qed.

(** C5, as amended: [fromHex] throws the field's "invalid hex" error exactly
    when the text is empty, has an odd length, or holds a character outside
    [[0-9a-fA-F]]; otherwise it returns the decoded bytes, half as many as the
    text has characters. *)
Theorem fromHex_fails_iff (text field : string) :
  (fromHex text field = Throw (field ++ ": invalid hex") <->
     text = "" \/ String.length text mod 2 = 1 \/ outside_hex text)
  /\ (fromHex text field <> Throw (field ++ ": invalid hex") ->
      fromHex text field = Ok (Buffer_from_hex text)
      /\ 2 * length (Buffer_from_hex text) = String.length text).
Proof.
  rewrite <- isValidHex_false_iff. unfold fromHex.
  destruct (isValidHex text) eqn:Hv; cbn; split.
  - split; [discriminate|discriminate].
  - intros _. split; [reflexivity|now apply isValidHex_length].
  - split; reflexivity.
  - intros H. now elim H.
Qed.

(** C5 as stated fails: the empty text has an even length and no character
    outside the class, and [fromHex] rejects it. *)
Lemma fromHex_empty_fails :
  String.length "" mod 2 = 0 /\ ~ outside_hex ""
  /\ fromHex "" "payload_ct" = Throw "payload_ct: invalid hex".
Proof.
  split; [reflexivity|]. split; [|reflexivity].
  intros (c & [] & _).
Qed.

(** ** Validation and the layers of decryption *)

Lemma falsy_false (s : string) : falsy s = false <-> s <> "".
Proof. destruct s; cbn; split; congruence. Qed.

Lemma falsy_true (s : string) : falsy s = true <-> s = "".
Proof. destruct s; cbn; split; congruence. Qed.

(** On a field of the declared type the test [typeof x !== "string"] never
    fires: the guard is the test [!x] on a string. *)
Ltac typed_fields :=
  cbn [falsy_value typeof_string as_string string_field negb];
  rewrite ?orb_false_r.

Lemma assertHexLength_ok (hex : string) (n : nat) (field : string) :
  assertHexLength hex n field = Ok tt <-> hex_of_length hex n.
Proof.
  unfold assertHexLength, hex_of_length.
  destruct (isValidHex hex); cbn.
  - destruct (Nat.eqb_spec (String.length hex) (n * 2)); cbn; split;
      try tauto; try discriminate; try (intros [_ H]; contradiction).
  - split; [discriminate|intros [H _]; discriminate].
Qed.

Lemma fromHex_ok (hex field : string) :
  isValidHex hex = true -> fromHex hex field = Ok (Buffer_from_hex hex).
Proof. unfold fromHex. now intros ->. Qed.

Lemma fromHex_ok_inv (hex field : string) (buf : Buffer) :
  fromHex hex field = Ok buf -> isValidHex hex = true.
Proof. unfold fromHex. destruct (isValidHex hex); cbn; [reflexivity|discriminate]. Qed.

Lemma hex_of_length_decoded (hex : string) (n : nat) :
  hex_of_length hex n -> length (Buffer_from_hex hex) = n.
Proof. intros [Hv Hl]. apply isValidHex_length in Hv. lia. Qed.

Lemma bindO_ok {A B} (m : Outcome A) (k : A -> Outcome B) (b : B) :
  bindO m k = Ok b -> exists a, m = Ok a /\ k a = Ok b.
Proof. destruct m; cbn; [eauto|discriminate]. Qed.

Lemma validateRecordShape_ok (P : Platform) (record : TxSecureRecord) :
  validateRecordShape P record = Ok tt <-> well_shaped P record.
Proof.
  unfold validateRecordShape, well_shaped. typed_fields. split.
  - destruct (falsy (id record)) eqn:H1; [discriminate|].
    destruct (falsy (partyId record)) eqn:H2; [discriminate|].
    destruct (falsy (createdAt record)) eqn:H3; [discriminate|].
    destruct (Date_parse_isNaN P (createdAt record)) eqn:H4; [discriminate|].
    destruct (String.eqb_spec (alg record) SUPPORTED_ALG) as [H5|]; [|discriminate].
    destruct (Z.eqb_spec (mk_version record) 1) as [H6|]; [|discriminate].
    cbn [negb]. intros H.
    apply bindO_ok in H. destruct H as ([] & H7 & H).
    apply bindO_ok in H. destruct H as ([] & H8 & H).
    apply bindO_ok in H. destruct H as ([] & H9 & H).
    apply bindO_ok in H. destruct H as ([] & H10 & H).
    apply bindO_ok in H. destruct H as (b1 & H11 & H).
    apply bindO_ok in H. destruct H as (b2 & H12 & _).
    apply falsy_false in H1, H2, H3. apply assertHexLength_ok in H7, H8, H9, H10.
    apply fromHex_ok_inv in H11, H12. tauto.
  - intros (H1 & H2 & H3 & H4 & H5 & H6 & H7 & H8 & H9 & H10 & H11 & H12).
    apply falsy_false in H1, H2, H3. rewrite H1, H2, H3, H4, H5, H6.
    rewrite String.eqb_refl. cbn [negb Z.eqb Pos.eqb].
    apply (assertHexLength_ok _ _ "payload_nonce") in H7.
    apply (assertHexLength_ok _ _ "payload_tag") in H8.
    apply (assertHexLength_ok _ _ "dek_wrap_nonce") in H9.
    apply (assertHexLength_ok _ _ "dek_wrap_tag") in H10.
    rewrite H7, H8, H9, H10. cbn [bindO].
    rewrite (fromHex_ok _ _ H11), (fromHex_ok _ _ H12). reflexivity.
Qed.

Lemma parseMasterKeyHex_ok (masterKeyHex : string) (masterKey : Buffer) :
  parseMasterKeyHex masterKeyHex = Ok masterKey <->
  hex_of_length masterKeyHex KEY_BYTES /\ masterKey = Buffer_from_hex masterKeyHex.
Proof.
  unfold parseMasterKeyHex. split.
  - intros H. apply bindO_ok in H. destruct H as ([] & H1 & H2).
    apply assertHexLength_ok in H1. split; [exact H1|congruence].
  - intros [H ->]. apply (assertHexLength_ok _ _ "master key") in H.
    now rewrite H.
Qed.

Lemma aesGcmDecrypt_lengths (P : Platform) (key nonce ct tag : Buffer) (aad : Buffer) :
  length key = KEY_BYTES -> length nonce = NONCE_BYTES -> length tag = TAG_BYTES ->
  aesGcmDecrypt P key nonce ct tag (Some aad) =
  match aes256gcm_decrypt P key nonce aad ct tag with
  | Some plaintext => Ok plaintext
  | None => Throw DECRYPTION_FAILED
  end.
Proof.
  intros Hk Hn Ht. unfold aesGcmDecrypt.
  rewrite Hk, Hn, Ht, !Nat.eqb_refl. reflexivity.
Qed.

Lemma decrypt_well_shaped (P : Platform) (record : TxSecureRecord)
      (masterKeyHex : string) (masterKey : Buffer) (m : Machine (Entropy P) DecryptInput) :
  dec_record (arguments m) = record ->
  dec_masterKeyHex (arguments m) = masterKeyHex ->
  validateRecordShape P record = Ok tt ->
  parseMasterKeyHex masterKeyHex = Ok masterKey ->
  decryptTransaction P m = (open_layers P record masterKey, m).
Proof.
  intros Hr Hk Hshape Hkey.
  unfold decryptTransaction, bind, liftO, getArguments. cbn [fst snd].
  rewrite Hr, Hk, Hshape, Hkey.
  apply validateRecordShape_ok in Hshape.
  destruct Hshape as (_ & _ & _ & _ & _ & _ & Hpn & Hpt & Hwn & Hwt & Hpc & Hwc).
  apply parseMasterKeyHex_ok in Hkey. destruct Hkey as [Hmk ->].
  rewrite (fromHex_ok _ _ (proj1 Hwn)), (fromHex_ok _ _ Hwc), (fromHex_ok _ _ (proj1 Hwt)).
  rewrite aesGcmDecrypt_lengths by (now apply hex_of_length_decoded).
  unfold open_layers, wrap_layer, payload_layer.
  destruct (aes256gcm_decrypt P _ _ _ _ _) as [dek|]; [|reflexivity].
  destruct (Nat.eqb_spec (length dek) KEY_BYTES) as [Hdek|]; cbn [negb]; [|reflexivity].
  rewrite (fromHex_ok _ _ (proj1 Hpn)), (fromHex_ok _ _ Hpc), (fromHex_ok _ _ (proj1 Hpt)).
  rewrite aesGcmDecrypt_lengths by (try exact Hdek; now apply hex_of_length_decoded).
  destruct (aes256gcm_decrypt P dek _ _ _ _) as [pt|]; [|reflexivity].
  destruct (JSON_parse P _); reflexivity.
Qed.

(** ** Running [encryptTransaction] *)

Lemma draw_run {E I A} (f : E -> A * E) (m : Machine E I) :
  draw f m = (Ok (fst (f (entropy m))),
              {| arguments := arguments m; entropy := snd (f (entropy m)) |}).
Proof. unfold draw. now destruct (f (entropy m)). Qed.

Lemma aesGcmEncrypt_run (P : Platform) {I} (key plaintext aad : Buffer)
      (m : Machine (Entropy P) I) :
  length key = KEY_BYTES ->
  aesGcmEncrypt P key plaintext (Some aad) m =
  (let r := randomBytes P NONCE_BYTES (entropy m) in
   let sealed := aes256gcm_encrypt P key (fst r) aad plaintext in
   (Ok {| nonce := fst r; ciphertext := fst sealed; tag := snd sealed |},
    {| arguments := arguments m; entropy := snd r |})).
Proof.
  intros Hk. unfold aesGcmEncrypt. rewrite Hk, Nat.eqb_refl. cbn [negb].
  unfold bind. rewrite draw_run. reflexivity.
Qed.

Lemma encrypt_sealed (P : Platform) (L : PlatformLaws P)
      (m : Machine (Entropy P) (EncryptInput (JSValue P)))
      (masterKey : Buffer) (payloadJson : string) :
  enc_partyId (arguments m) <> "" ->
  parseMasterKeyHex (enc_masterKeyHex (arguments m)) = Ok masterKey ->
  JSON_stringify P (enc_payload (arguments m)) = Ok (Some payloadJson) ->
  encryptTransaction P m =
  (Ok (sealed_record P (enc_partyId (arguments m)) payloadJson masterKey
         (draws P (entropy m))),
   {| arguments := arguments m; entropy := entropy_left (draws P (entropy m)) |}).
Proof.
  intros Hparty Hkey Hjson.
  unfold encryptTransaction.
  unfold bind at 1. unfold getArguments at 1.
  apply falsy_false in Hparty.
  change (falsy_value (enc_partyId (arguments m))
          || negb (typeof_string (enc_partyId (arguments m))))
    with (falsy (enc_partyId (arguments m)) || false).
  rewrite Hparty. cbn [orb as_string string_field].
  unfold bind at 1. unfold liftO at 1. rewrite Hkey.
  unfold bind at 1. rewrite draw_run.
  unfold bind at 1. unfold liftO at 1. cbn [arguments entropy]. rewrite Hjson.
  unfold bind at 1. rewrite draw_run.
  unfold bind at 1. rewrite draw_run. cbn [arguments entropy].
  unfold bind at 1. rewrite aesGcmEncrypt_run by apply (randomBytes_length L).
  cbv zeta. cbn [arguments entropy].
  unfold bind at 1. rewrite aesGcmEncrypt_run.
  2:{ apply parseMasterKeyHex_ok in Hkey. destruct Hkey as [Hk ->].
      now apply hex_of_length_decoded. }
  reflexivity.
Qed.

Lemma length_from_utf8 (s : string) : length (Buffer_from_utf8 s) = String.length s.
Proof.
  unfold Buffer_from_utf8, list_byte_of_string. rewrite length_map.
  induction s as [|c s IH]; cbn; congruence.
Qed.

Lemma toString_utf8_from_utf8 (s : string) :
  Buffer_toString_utf8 (Buffer_from_utf8 s) = s.
Proof. apply string_of_list_byte_of_string. Qed.

Lemma from_utf8_inj (s t : string) :
  Buffer_from_utf8 s = Buffer_from_utf8 t -> s = t.
Proof.
  intros H. rewrite <- (toString_utf8_from_utf8 s), H.
  apply toString_utf8_from_utf8.
Qed.

Lemma hex_of_length_toString_hex (buf : Buffer) (n : nat) :
  length buf = n -> n <> 0 -> hex_of_length (Buffer_toString_hex buf) n.
Proof.
  intros Hl Hn. split.
  - apply isValidHex_toString_hex. intros ->. cbn in Hl. congruence.
  - rewrite length_toString_hex. lia.
Qed.

Section Draws.

Variable P : Platform.
Hypothesis L : PlatformLaws P.
Variable e : Entropy P.

Lemma drawn_dek_length : length (drawn_dek (draws P e)) = KEY_BYTES.
Proof. apply (randomBytes_length L). Qed.

Lemma drawn_payload_nonce_length :
  length (drawn_payload_nonce (draws P e)) = NONCE_BYTES.
Proof. apply (randomBytes_length L). Qed.

Lemma drawn_wrap_nonce_length :
  length (drawn_wrap_nonce (draws P e)) = NONCE_BYTES.
Proof. apply (randomBytes_length L). Qed.

Lemma drawn_id_nonempty : drawn_id (draws P e) <> "".
Proof. apply (randomUUID_nonempty L). Qed.

Lemma drawn_createdAt_nonempty : drawn_createdAt (draws P e) <> "".
Proof. apply (toISOString_nonempty L). Qed.

Lemma drawn_createdAt_parses :
  Date_parse_isNaN P (drawn_createdAt (draws P e)) = false.
Proof. apply (toISOString_parses L). Qed.

Lemma sealed_well_shaped (party payloadJson : string) (masterKey : Buffer) :
  party <> "" -> payloadJson <> "" -> length masterKey = KEY_BYTES ->
  well_shaped P (sealed_record P party payloadJson masterKey (draws P e)).
Proof.
  intros Hparty Hjson Hmk.
  pose proof drawn_dek_length as Hdek.
  pose proof drawn_payload_nonce_length as Hpn.
  pose proof drawn_wrap_nonce_length as Hwn.
  unfold well_shaped, sealed_record. cbv zeta.
  cbn [id partyId createdAt payload_nonce payload_ct payload_tag
       dek_wrap_nonce dek_wrapped dek_wrap_tag alg mk_version].
  repeat match goal with |- _ /\ _ => split end;
    auto using drawn_id_nonempty, drawn_createdAt_nonempty, drawn_createdAt_parses.
  - now apply hex_of_length_toString_hex.
  - apply hex_of_length_toString_hex; [|discriminate].
    now apply (gcm_tag_length L).
  - now apply hex_of_length_toString_hex.
  - apply hex_of_length_toString_hex; [|discriminate].
    now apply (gcm_tag_length L).
  - apply isValidHex_toString_hex. intros Hnil.
    apply (f_equal (@length byte)) in Hnil.
    rewrite (gcm_ciphertext_length L), length_from_utf8 in Hnil by assumption.
    destruct payloadJson; [congruence|discriminate].
  - apply isValidHex_toString_hex. intros Hnil.
    apply (f_equal (@length byte)) in Hnil.
    rewrite (gcm_ciphertext_length L), Hdek in Hnil by assumption.
    discriminate.
Qed.

Lemma open_sealed (party payloadJson : string) (masterKey : Buffer) :
  length masterKey = KEY_BYTES ->
  open_layers P (sealed_record P party payloadJson masterKey (draws P e))
    masterKey =
  match JSON_parse P payloadJson with
  | Some value => Ok value
  | None => Throw DECRYPTION_FAILED
  end.
Proof.
  intros Hmk.
  pose proof drawn_dek_length as Hdek.
  pose proof drawn_payload_nonce_length as Hpn.
  pose proof drawn_wrap_nonce_length as Hwn.
  unfold open_layers, wrap_layer, payload_layer, sealed_record, recordAad.
  cbv zeta.
  cbn [id partyId createdAt payload_nonce payload_ct payload_tag
       dek_wrap_nonce dek_wrapped dek_wrap_tag alg mk_version].
  rewrite !from_hex_toString_hex.
  rewrite (gcm_decrypt_encrypt L) by assumption.
  rewrite Hdek, Nat.eqb_refl.
  rewrite (gcm_decrypt_encrypt L) by assumption.
  now rewrite toString_utf8_from_utf8.
Qed.

End Draws.

(** ** The reference platform meets the contract *)

Module ReferenceFacts.
Import Reference.

Lemma random_bytes_length (n : nat) (seed : N) :
  length (fst (random_bytes n seed)) = n.
Proof.
  revert seed. induction n as [|n IH]; intros seed; [reflexivity|].
  cbn [random_bytes]. specialize (IH (next seed)).
  destruct (random_bytes n (next seed)). cbn in *. congruence.
Qed.

Lemma append_nonempty_r (a b : string) : b <> "" -> a ++ b <> "".
Proof. destruct a; cbn; [auto|discriminate]. Qed.

Lemma random_uuid_nonempty (seed : N) : fst (random_uuid seed) <> "".
Proof.
  unfold random_uuid. destruct (random_bytes 16 seed) as [bytes seed'].
  cbn [fst]. apply append_nonempty_r. discriminate.
Qed.

Lemma digits_fuel_nonempty (fuel : nat) (n : N) (acc : string) :
  acc <> "" -> digits_fuel fuel n acc <> "".
Proof.
  revert n acc. induction fuel as [|fuel IH]; intros n acc Hacc; [exact Hacc|].
  cbn [digits_fuel]. destruct (n <? 10)%N; [discriminate|].
  apply IH. discriminate.
Qed.

Lemma digits_nonempty (n : N) : digits n <> "".
Proof.
  unfold digits. cbn [digits_fuel]. destruct (n <? 10)%N; [discriminate|].
  apply digits_fuel_nonempty. discriminate.
Qed.

Lemma stringify_nonempty (v : value) (s : string) :
  stringify v = Some s -> s <> "".
Proof.
  destruct v as [| |[]|[|p|p]|str|items|members]; cbn [stringify];
    intros H; inversion H; subst; try discriminate.
  - apply digits_nonempty.
Qed.

Lemma xor_stream_length (key nonce : Buffer) (i : nat) (data : Buffer) :
  length (xor_stream key nonce i data) = length data.
Proof.
  revert i. induction data as [|b rest IH]; intros i; cbn; [reflexivity|].
  now rewrite IH.
Qed.

Lemma bytes_of_N_length (count : nat) (n : N) : length (bytes_of_N count n) = count.
Proof.
  revert n. induction count as [|count IH]; intros n; cbn; [reflexivity|].
  now rewrite IH.
Qed.

Lemma xor_ascii_cancel (a k : ascii) : xor_ascii (xor_ascii a k) k = a.
Proof.
  destruct a, k. cbn [xor_ascii].
  now rewrite !xorb_assoc, !xorb_nilpotent, !xorb_false_r.
Qed.

Lemma xor_byte_cancel (a k : byte) : xor_byte (xor_byte a k) k = a.
Proof.
  unfold xor_byte. rewrite ascii_of_byte_of_ascii, xor_ascii_cancel.
  apply byte_of_ascii_of_byte.
Qed.

Lemma xor_stream_cancel (key nonce : Buffer) (i : nat) (data : Buffer) :
  xor_stream key nonce i (xor_stream key nonce i data) = data.
Proof.
  revert i. induction data as [|b rest IH]; intros i; cbn [xor_stream];
    [reflexivity|].
  now rewrite xor_byte_cancel, IH.
Qed.

Lemma buffer_eqb_refl (a : Buffer) : buffer_eqb a a = true.
Proof.
  induction a as [|x a IH]; cbn; [reflexivity|].
  rewrite IH, andb_true_r. now apply Byte.byte_dec_lb.
Qed.

Lemma open_seal (key nonce aad plaintext : Buffer) :
  open key nonce aad (fst (seal key nonce aad plaintext))
    (snd (seal key nonce aad plaintext)) = Some plaintext.
Proof.
  unfold open, seal. cbn [fst snd].
  now rewrite buffer_eqb_refl, xor_stream_cancel.
Qed.

Lemma laws : PlatformLaws platform.
Proof.
  constructor.
  - exact random_bytes_length.
  - exact random_uuid_nonempty.
  - discriminate.
  - reflexivity.
  - intros v s H. apply stringify_nonempty with (v := v).
    cbn in H. congruence.
  - intros. apply xor_stream_length.
  - intros. apply bytes_of_N_length.
  - intros. apply open_seal.
Qed.

End ReferenceFacts.

(** ** What a call leaves unchanged *)

Section Frames.

Context {E I : Type}.

Lemma keeps_ret {A} (a : A) : keeps_arguments (@ret E I A a).
Proof. intros m. reflexivity. Qed.

Lemma keeps_throw {A} (msg : string) : keeps_arguments (@throw E I A msg).
Proof. intros m. reflexivity. Qed.

Lemma keeps_liftO {A} (o : Outcome A) : keeps_arguments (@liftO E I A o).
Proof. intros m. reflexivity. Qed.

Lemma keeps_getArguments : keeps_arguments (@getArguments E I).
Proof. intros m. reflexivity. Qed.

Lemma keeps_draw {A} (f : E -> A * E) : keeps_arguments (@draw E I A f).
Proof. intros m. unfold draw. now destruct (f (entropy m)). Qed.

Lemma keeps_bind {A B} (c : Exec E I A) (k : A -> Exec E I B) :
  keeps_arguments c -> (forall a, keeps_arguments (k a)) ->
  keeps_arguments (bind c k).
Proof.
  intros Hc Hk m. unfold bind. specialize (Hc m).
  destruct (c m) as [[a|msg] m1]; cbn [snd] in *.
  - now rewrite Hk.
  - exact Hc.
Qed.

Lemma reads_ret {A} (a : A) : reads_only (@ret E I A a).
Proof. intros m. split; [reflexivity|intros m' _; reflexivity]. Qed.

Lemma reads_throw {A} (msg : string) : reads_only (@throw E I A msg).
Proof. intros m. split; [reflexivity|intros m' _; reflexivity]. Qed.

Lemma reads_liftO {A} (o : Outcome A) : reads_only (@liftO E I A o).
Proof. intros m. split; [reflexivity|intros m' _; reflexivity]. Qed.

Lemma reads_getArguments : reads_only (@getArguments E I).
Proof.
  intros m. split; [reflexivity|]. intros m' H. cbn. now rewrite H.
Qed.

Lemma reads_bind {A B} (c : Exec E I A) (k : A -> Exec E I B) :
  reads_only c -> (forall a, reads_only (k a)) -> reads_only (bind c k).
Proof.
  intros Hc Hk m. unfold bind.
  destruct (Hc m) as [Hm Hout]. split.
  - destruct (c m) as [[a|msg] m1]; cbn [snd] in Hm; subst m1;
      [apply Hk|reflexivity].
  - intros m' Hargs. specialize (Hout m' Hargs).
    destruct (Hc m') as [Hm' _].
    destruct (c m) as [[a|msg] m1], (c m') as [[a'|msg'] m1'];
      cbn [fst snd] in *; subst; try discriminate.
    + injection Hout as ->. now apply Hk.
    + now injection Hout as ->.
Qed.

End Frames.

(** An assignment does not keep the arguments: the property can fail. *)
Example assign_mutates :
  ~ keeps_arguments (@assign unit nat (fun _ => 1)).
Proof.
  intros H. specialize (H {| arguments := 0; entropy := tt |}). discriminate H.
Qed.

Ltac frame_step :=
  first
    [ apply keeps_ret | apply keeps_throw | apply keeps_liftO
    | apply keeps_getArguments | apply keeps_draw
    | apply reads_ret | apply reads_throw | apply reads_liftO
    | apply reads_getArguments
    | apply keeps_bind; [|intros ?]
    | apply reads_bind; [|intros ?]
    | match goal with
      | |- keeps_arguments (if ?b then _ else _) => destruct b
      | |- reads_only (if ?b then _ else _) => destruct b
      | |- keeps_arguments (match ?x with _ => _ end) => destruct x
      | |- reads_only (match ?x with _ => _ end) => destruct x
      end ].

Lemma keeps_aesGcmEncrypt (P : Platform) {I} (key plaintext : Buffer)
      (aad : option Buffer) :
  keeps_arguments (@aesGcmEncrypt P I key plaintext aad).
Proof. unfold aesGcmEncrypt. repeat frame_step. Qed.

Lemma keeps_encryptTransaction (P : Platform) :
  keeps_arguments (encryptTransaction P).
Proof.
  unfold encryptTransaction.
  repeat first [apply keeps_aesGcmEncrypt | frame_step].
Qed.

Lemma reads_decryptTransaction (P : Platform) : reads_only (decryptTransaction P).
Proof. unfold decryptTransaction. repeat frame_step. Qed.

(** C10: neither entry point mutates its arguments.  Whatever the machine a
    call starts from, and whether the call returns or throws, the argument
    object after the call is the argument object before it: the party, the
    payload and the key for [encryptTransaction], every field of the record
    and the key for [decryptTransaction]. *)
Theorem arguments_not_mutated (P : Platform) :
  (forall m, arguments_after (encryptTransaction P m) = arguments m)
  /\ (forall m, arguments_after (decryptTransaction P m) = arguments m).
Proof.
  split; intros m.
  - apply keeps_encryptTransaction.
  - unfold arguments_after. now rewrite (proj1 (reads_decryptTransaction P m)).
Qed.

(** ** A call at the declared type is the call on the object *)

Section Alike.

Context {E I I' : Type}.

Lemma alike_ret {A} (a : A) : runs_alike (@ret E I A a) (@ret E I' A a).
Proof. intros m m' H. now split. Qed.

Lemma alike_throw {A} (msg : string) :
  runs_alike (@throw E I A msg) (@throw E I' A msg).
Proof. intros m m' H. now split. Qed.

Lemma alike_liftO {A} (o : Outcome A) :
  runs_alike (@liftO E I A o) (@liftO E I' A o).
Proof. intros m m' H. now split. Qed.

Lemma alike_draw {A} (f : E -> A * E) :
  runs_alike (@draw E I A f) (@draw E I' A f).
Proof.
  intros m m' H. unfold draw, outcome, entropy_after. rewrite H.
  now destruct (f (entropy m')).
Qed.

Lemma alike_bind {A B} (c : Exec E I A) (c' : Exec E I' A)
      (k : A -> Exec E I B) (k' : A -> Exec E I' B) :
  runs_alike c c' -> (forall a, runs_alike (k a) (k' a)) ->
  runs_alike (bind c k) (bind c' k').
Proof.
  intros Hc Hk m m' H. unfold bind.
  destruct (Hc m m' H) as [Ho He]. unfold outcome, entropy_after in *.
  destruct (c m) as [[a|msg] m1], (c' m') as [[a'|msg'] m1'];
    cbn [fst snd] in *; try discriminate.
  - injection Ho as ->. now apply Hk.
  - injection Ho as ->. now split.
Qed.

End Alike.

Lemma alike_aesGcmEncrypt (P : Platform) {I I'} (key plaintext : Buffer)
      (aad : option Buffer) :
  runs_alike (@aesGcmEncrypt P I key plaintext aad)
             (@aesGcmEncrypt P I' key plaintext aad).
Proof.
  unfold aesGcmEncrypt.
  destruct (negb _); [apply alike_throw|].
  apply alike_bind; [apply alike_draw|intros n; apply alike_ret].
Qed.

Ltac alike_step :=
  first
    [ apply alike_ret | apply alike_throw | apply alike_liftO | apply alike_draw
    | apply alike_aesGcmEncrypt
    | apply alike_bind; [|intros ?]
    | match goal with
      | |- runs_alike (if ?b then _ else _) _ => destruct b
      | |- runs_alike (match ?x with _ => _ end) _ => destruct x
      end ].

Ltac alike_calls :=
  match goal with
  | |- outcome (?c ?m) = outcome (?c' ?m') /\ _ =>
      apply (fun H : runs_alike c c' => H m m' eq_refl)
  end;
  repeat alike_step.

Lemma bind_getArguments {E I A} (k : I -> Exec E I A) (m : Machine E I) :
  bind getArguments k m = k (arguments m) m.
Proof. reflexivity. Qed.

(** [encryptTransaction] on a string, and on the same string handed over as
    any value. *)
Lemma encrypt_call_object (P : Platform) (party : string) (payload : JSValue P)
      (masterKeyHex : string) (e : Entropy P) :
  outcome (encrypt_call P (IsString party) payload masterKeyHex e)
  = outcome (encrypt_call P party payload masterKeyHex e)
  /\ entropy_after (encrypt_call P (IsString party) payload masterKeyHex e)
     = entropy_after (encrypt_call P party payload masterKeyHex e).
Proof.
  unfold encrypt_call, encryptTransaction. rewrite !bind_getArguments.
  cbn [arguments enc_partyId enc_payload enc_masterKeyHex
       falsy_value typeof_string as_string dynamic_field string_field].
  alike_calls.
Qed.

(** [decryptTransaction] on a record, and on the record as an object. *)
Lemma decrypt_call_object (P : Platform) (record : TxSecureRecord)
      (masterKeyHex : string) (e : Entropy P) :
  outcome (decrypt_call P (object_of record) masterKeyHex e)
  = outcome (decrypt_call P record masterKeyHex e)
  /\ entropy_after (decrypt_call P (object_of record) masterKeyHex e)
     = entropy_after (decrypt_call P record masterKeyHex e).
Proof.
  unfold decrypt_call, decryptTransaction. rewrite !bind_getArguments.
  cbn [arguments dec_record dec_masterKeyHex].
  change (validateRecordShape P (object_of record))
    with (validateRecordShape P record).
  change (recordAad (object_of record)) with (recordAad record).
  cbn [object_of payload_nonce payload_ct payload_tag dek_wrap_nonce
       dek_wrapped dek_wrap_tag].
  alike_calls.
Qed.

(** ** The checks of [encryptTransaction] *)

(** The checks, whatever the type of the [partyId] that the caller hands
    over: [refused] is the guard [!partyId || typeof partyId !== "string"]. *)
Section EncryptGuard.

Variable P : Platform.
Context {S : Type} {F : StringField S}.
Variable m : Machine (Entropy P) (EncryptInputOf S (JSValue P)).

Let party := enc_partyId (arguments m).
Let payload := enc_payload (arguments m).
Let key := enc_masterKeyHex (arguments m).
Let refused : bool := falsy_value party || negb (typeof_string party).

(** The machine once the DEK has been drawn. *)
Let after_dek : Machine (Entropy P) (EncryptInputOf S (JSValue P)) :=
  {| arguments := arguments m;
     entropy := snd (randomBytes P KEY_BYTES (entropy m)) |}.

Lemma encrypt_refused :
  refused = true -> encryptTransaction P m = (Throw "partyId is required", m).
Proof.
  unfold refused, party. intros H.
  unfold encryptTransaction, bind, getArguments. cbn [fst snd]. now rewrite H.
Qed.

Lemma encrypt_admitted_bad_key (msg : string) :
  refused = false -> parseMasterKeyHex key = Throw msg ->
  encryptTransaction P m = (Throw msg, m).
Proof.
  unfold refused, party, key. intros H Hk.
  unfold encryptTransaction, bind, getArguments, liftO. cbn [fst snd].
  now rewrite H, Hk.
Qed.

Lemma encrypt_admitted_stringify (o : Outcome (option string)) :
  refused = false -> (exists mk, parseMasterKeyHex key = Ok mk) ->
  JSON_stringify P payload = o ->
  match o with
  | Throw msg => encryptTransaction P m = (Throw msg, after_dek)
  | Ok None => encryptTransaction P m = (Throw NOT_SERIALIZABLE, after_dek)
  | Ok (Some _) => True
  end.
Proof.
  unfold refused, party, key, payload. intros H [mk Hk] Hs.
  destruct o as [[json|]|msg]; [exact I| |];
    unfold encryptTransaction;
    (unfold bind at 1; unfold getArguments at 1; cbn [fst snd]; rewrite H);
    (unfold bind at 1; unfold liftO at 1; rewrite Hk);
    (unfold bind at 1; rewrite draw_run);
    (unfold bind at 1; unfold liftO at 1; cbn [arguments]; rewrite Hs);
    reflexivity.
Qed.

End EncryptGuard.

(** The same checks on a [partyId] of the declared type, where the guard is
    the test of the empty string. *)
Section EncryptChecks.

Variable P : Platform.
Variable m : Machine (Entropy P) (EncryptInput (JSValue P)).

Let party := enc_partyId (arguments m).
Let payload := enc_payload (arguments m).
Let key := enc_masterKeyHex (arguments m).

(** The machine once the DEK has been drawn. *)
Let after_dek : Machine (Entropy P) (EncryptInput (JSValue P)) :=
  {| arguments := arguments m;
     entropy := snd (randomBytes P KEY_BYTES (entropy m)) |}.

Lemma encrypt_missing_party :
  party = "" -> encryptTransaction P m = (Throw "partyId is required", m).
Proof.
  intros H. apply falsy_true in H. unfold party in H.
  apply encrypt_refused. typed_fields. exact H.
Qed.

Lemma encrypt_bad_key (msg : string) :
  party <> "" -> parseMasterKeyHex key = Throw msg ->
  encryptTransaction P m = (Throw msg, m).
Proof.
  intros H Hk. apply falsy_false in H. unfold party, key in *.
  apply encrypt_admitted_bad_key; [typed_fields; exact H | exact Hk].
Qed.

Lemma encrypt_stringify (o : Outcome (option string)) :
  party <> "" -> (exists mk, parseMasterKeyHex key = Ok mk) ->
  JSON_stringify P payload = o ->
  match o with
  | Throw msg => encryptTransaction P m = (Throw msg, after_dek)
  | Ok None => encryptTransaction P m = (Throw NOT_SERIALIZABLE, after_dek)
  | Ok (Some _) => True
  end.
Proof.
  intros H Hk Hs. apply falsy_false in H. unfold party, key, payload in *.
  apply (encrypt_admitted_stringify P m o); [typed_fields; exact H | exact Hk | exact Hs].
Qed.

End EncryptChecks.

Lemma parseMasterKeyHex_throws (masterKeyHex msg : string) :
  parseMasterKeyHex masterKeyHex = Throw msg ->
  (isValidHex masterKeyHex = false /\ msg = "master key: invalid hex")
  \/ (isValidHex masterKeyHex = true
      /\ String.length masterKeyHex <> KEY_BYTES * 2
      /\ msg = "master key: invalid length").
Proof.
  unfold parseMasterKeyHex, assertHexLength.
  destruct (isValidHex masterKeyHex); cbn [negb bindO].
  - destruct (Nat.eqb_spec (String.length masterKeyHex) (KEY_BYTES * 2));
      cbn [negb bindO]; intros H; inversion H. right. auto.
  - intros H; inversion H. left. auto.
Qed.

Lemma parseMasterKeyHex_total (masterKeyHex : string) :
  hex_of_length masterKeyHex KEY_BYTES \/
  exists msg, parseMasterKeyHex masterKeyHex = Throw msg.
Proof.
  destruct (parseMasterKeyHex masterKeyHex) as [mk|msg] eqn:H.
  - left. now apply parseMasterKeyHex_ok in H.
  - right. eauto.
Qed.

(** C6: [encryptTransaction] checks its inputs in order.  A [partyId] that
    is absent, that is not a string (truthy or not), or that is the empty
    string throws "partyId is required" whatever the master key and the
    payload are, and draws nothing; with a [partyId] that is a string and not
    empty, a master key that is not 64 hex digits throws the master key error
    whatever the payload is, and draws nothing; with such a [partyId] and a
    valid key, a payload whose JSON text is undefined throws "payload is not
    JSON-serializable"; and the call on a [partyId] of the declared type has
    the outcome of the call on that string handed over as a value. *)
Theorem encrypt_checks_in_order (P : Platform) (party : Dynamic)
        (payload : JSValue P) (masterKeyHex : string) (e : Entropy P) :
  (party = Undefined \/ (exists truthy, party = NotString truthy)
   \/ party = IsString "" ->
   encrypt_call P party payload masterKeyHex e
   = (Throw "partyId is required",
      {| arguments := {| enc_partyId := party;
                         enc_payload := payload;
                         enc_masterKeyHex := masterKeyHex |};
         entropy := e |}))
  /\ (forall s, party = IsString s -> s <> "" ->
      (isValidHex masterKeyHex = false ->
       encrypt_call P party payload masterKeyHex e
       = (Throw "master key: invalid hex",
          {| arguments := {| enc_partyId := party;
                             enc_payload := payload;
                             enc_masterKeyHex := masterKeyHex |};
             entropy := e |}))
      /\ (isValidHex masterKeyHex = true ->
          String.length masterKeyHex <> 64 ->
          encrypt_call P party payload masterKeyHex e
          = (Throw "master key: invalid length",
             {| arguments := {| enc_partyId := party;
                                enc_payload := payload;
                                enc_masterKeyHex := masterKeyHex |};
                entropy := e |}))
      /\ (hex_of_length masterKeyHex KEY_BYTES ->
          JSON_stringify P payload = Ok None ->
          outcome (encrypt_call P party payload masterKeyHex e)
          = Throw NOT_SERIALIZABLE))
  /\ (forall s, party = IsString s ->
      outcome (encrypt_call P s payload masterKeyHex e)
      = outcome (encrypt_call P party payload masterKeyHex e)).
Proof.
  split; [|split].
  - intros H. apply encrypt_refused.
    destruct H as [->|[[truthy ->]| ->]]; [reflexivity| |reflexivity].
    now destruct truthy.
  - intros s -> Hs.
    assert (Hguard : falsy_value (IsString s) || negb (typeof_string (IsString s))
                     = false).
    { cbn. rewrite orb_false_r. now apply falsy_false. }
    split; [|split].
    + intros Hv. apply encrypt_admitted_bad_key; [exact Hguard|].
      cbn [arguments enc_masterKeyHex]. unfold parseMasterKeyHex, assertHexLength.
      now rewrite Hv.
    + intros Hv Hl. apply encrypt_admitted_bad_key; [exact Hguard|].
      cbn [arguments enc_masterKeyHex]. unfold parseMasterKeyHex, assertHexLength.
      rewrite Hv. cbn [negb].
      destruct (Nat.eqb_spec (String.length masterKeyHex) (KEY_BYTES * 2));
        [contradiction|reflexivity].
    + intros Hk Hj. unfold encrypt_call, outcome.
      pose proof (encrypt_admitted_stringify P
                    {| arguments := {| enc_partyId := IsString s;
                                       enc_payload := payload;
                                       enc_masterKeyHex := masterKeyHex |};
                       entropy := e |} (Ok None) Hguard) as Hrun.
      cbn [arguments enc_masterKeyHex enc_payload] in Hrun.
      rewrite Hrun; [reflexivity| |exact Hj].
      exists (Buffer_from_hex masterKeyHex). now apply parseMasterKeyHex_ok.
  - intros s ->. symmetry. apply encrypt_call_object.
Qed.

(** A [partyId] that is left out, one that is a number, the empty string, and
    a party with a key that is not hex. *)
Lemma encrypt_checks_in_order_witness :
  outcome (encrypt_call Reference.platform Undefined Reference.VNull "zz" 0%N)
  = Throw "partyId is required"
  /\ outcome (encrypt_call Reference.platform (NotString true)
                Reference.VNull "zz" 0%N)
     = Throw "partyId is required"
  /\ outcome (encrypt_call Reference.platform (IsString "")
                Reference.VNull "zz" 0%N)
     = Throw "partyId is required"
  /\ outcome (encrypt_call Reference.platform (IsString "party")
                Reference.VNull "zz" 0%N)
     = Throw "master key: invalid hex".
Proof.
  split; [|split; [|split]].
  - exact (f_equal fst
             (proj1 (encrypt_checks_in_order Reference.platform Undefined
                       Reference.VNull "zz" 0%N)
                (or_introl eq_refl))).
  - exact (f_equal fst
             (proj1 (encrypt_checks_in_order Reference.platform (NotString true)
                       Reference.VNull "zz" 0%N)
                (or_intror (or_introl (ex_intro _ true eq_refl))))).
  - exact (f_equal fst
             (proj1 (encrypt_checks_in_order Reference.platform (IsString "")
                       Reference.VNull "zz" 0%N)
                (or_intror (or_intror eq_refl)))).
  - refine (f_equal fst
              (proj1 (proj1 (proj2 (encrypt_checks_in_order Reference.platform
                                      (IsString "party") Reference.VNull
                                      "zz" 0%N))
                        "party" eq_refl _) eq_refl)).
    discriminate.
Defined.

Lemma encrypt_ok_inv (P : Platform) (L : PlatformLaws P)
      (m : Machine (Entropy P) (EncryptInput (JSValue P))) (record : TxSecureRecord) :
  outcome (encryptTransaction P m) = Ok record ->
  exists json,
    enc_partyId (arguments m) <> ""
    /\ hex_of_length (enc_masterKeyHex (arguments m)) KEY_BYTES
    /\ JSON_stringify P (enc_payload (arguments m)) = Ok (Some json)
    /\ record = sealed_record P (enc_partyId (arguments m)) json
                  (Buffer_from_hex (enc_masterKeyHex (arguments m)))
                  (draws P (entropy m)).
Proof.
  unfold outcome. intros Hok.
  destruct (string_dec (enc_partyId (arguments m)) "") as [Hp|Hp].
  { rewrite encrypt_missing_party in Hok by exact Hp. discriminate. }
  destruct (parseMasterKeyHex_total (enc_masterKeyHex (arguments m)))
    as [Hk|[msg Hk]].
  2:{ rewrite (encrypt_bad_key P m msg Hp Hk) in Hok. discriminate. }
  assert (Hmk : parseMasterKeyHex (enc_masterKeyHex (arguments m))
                = Ok (Buffer_from_hex (enc_masterKeyHex (arguments m))))
    by now apply parseMasterKeyHex_ok.
  pose proof (encrypt_stringify P m _ Hp (ex_intro _ _ Hmk) eq_refl) as Hs.
  destruct (JSON_stringify P (enc_payload (arguments m))) as [[json|]|msg] eqn:Hj.
  - exists json. split; [exact Hp|]. split; [exact Hk|]. split; [reflexivity|].
    rewrite (encrypt_sealed P L m _ _ Hp Hmk Hj) in Hok.
    cbn [fst] in Hok. now injection Hok as <-.
  - rewrite Hs in Hok. discriminate.
  - rewrite Hs in Hok. discriminate.
Qed.

(** ** Records made by [encryptTransaction] *)

(** C7: every record that [encryptTransaction] returns passes
    [validateRecordShape]; its six binary fields are lowercase hex; both nonces
    decode to 12 bytes and both tags to 16; [payload_ct] decodes to as many
    bytes as the JSON text of the payload has, [dek_wrapped] to 32; [alg] is
    the supported tag and [mk_version] is 1. *)
Theorem encrypted_record_shape (P : Platform) (L : PlatformLaws P)
        (party : string) (payload : JSValue P) (masterKeyHex : string)
        (e : Entropy P) (record : TxSecureRecord) :
  outcome (encrypt_call P party payload masterKeyHex e) = Ok record ->
  validateRecordShape P record = Ok tt
  /\ Forall (fun hex => all_chars lower_hex_class hex = true) (binary_fields record)
  /\ decoded_length (payload_nonce record) = 12
  /\ decoded_length (dek_wrap_nonce record) = 12
  /\ decoded_length (payload_tag record) = 16
  /\ decoded_length (dek_wrap_tag record) = 16
  /\ (exists json,
         JSON_stringify P payload = Ok (Some json)
         /\ decoded_length (payload_ct record) = length (Buffer_from_utf8 json))
  /\ decoded_length (dek_wrapped record) = 32
  /\ alg record = "AES-256-GCM"
  /\ mk_version record = 1%Z.
Proof.
  intros Hok. apply (encrypt_ok_inv P L) in Hok.
  cbn [arguments entropy enc_partyId enc_payload enc_masterKeyHex] in Hok.
  destruct Hok as (json & Hp & Hk & Hj & ->).
  pose proof (hex_of_length_decoded _ _ Hk) as Hmk.
  pose proof (sealed_well_shaped P L e party json _ Hp
                (stringify_nonempty L _ _ Hj) Hmk) as Hshape.
  split; [now apply validateRecordShape_ok|].
  split; [repeat constructor; apply toString_hex_lower|].
  destruct Hshape as (_ & _ & _ & _ & _ & _ & Hpn & Hpt & Hwn & Hwt & _ & _).
  repeat split; try (now apply hex_of_length_decoded).
  - exists json. split; [exact Hj|].
    unfold decoded_length, sealed_record. cbv zeta. cbn [payload_ct].
    rewrite from_hex_toString_hex.
    apply (gcm_ciphertext_length L);
      [apply drawn_dek_length|apply drawn_payload_nonce_length]; exact L.
  - unfold decoded_length, sealed_record. cbv zeta. cbn [dek_wrapped].
    rewrite from_hex_toString_hex.
    rewrite (gcm_ciphertext_length L);
      [apply drawn_dek_length|exact Hmk|apply drawn_wrap_nonce_length]; exact L.
Qed.

(** The sample record of the reference platform. *)
Lemma encrypted_record_shape_witness :
  outcome (Reference.encrypt_sample Reference.sample_payload 7)
  = Ok Reference.sample_record
  /\ validateRecordShape Reference.platform Reference.sample_record = Ok tt
  /\ decoded_length (payload_ct Reference.sample_record) = 31.
Proof.
  assert (Hrun : outcome (Reference.encrypt_sample Reference.sample_payload 7)
                 = Ok Reference.sample_record) by (vm_compute; reflexivity).
  split; [exact Hrun|].
  pose proof (encrypted_record_shape Reference.platform ReferenceFacts.laws
                "party_123" Reference.sample_payload Reference.MASTER_KEY_HEX
                7%N Reference.sample_record Hrun) as H.
  split; [exact (proj1 H)|reflexivity].
Defined.

Lemma decrypt_call_well_shaped (P : Platform) (record : TxSecureRecord)
      (masterKeyHex : string) (masterKey : Buffer) (e : Entropy P) :
  validateRecordShape P record = Ok tt ->
  parseMasterKeyHex masterKeyHex = Ok masterKey ->
  outcome (decrypt_call P record masterKeyHex e) = open_layers P record masterKey.
Proof.
  intros Hv Hk. unfold decrypt_call, outcome.
  now rewrite (decrypt_well_shaped P record masterKeyHex masterKey
                 {| arguments := {| dec_record := record;
                                    dec_masterKeyHex := masterKeyHex |};
                    entropy := e |} eq_refl eq_refl Hv Hk).
Qed.

(** What comes back from a record is [JSON.parse] of the JSON text of the
    payload, on every platform that meets the contract. *)
Lemma decrypt_encrypt (P : Platform) (L : PlatformLaws P)
      (party : string) (payload : JSValue P) (masterKeyHex json : string)
      (e e' : Entropy P) :
  party <> "" ->
  hex_of_length masterKeyHex KEY_BYTES ->
  JSON_stringify P payload = Ok (Some json) ->
  exists record,
    outcome (encrypt_call P party payload masterKeyHex e) = Ok record
    /\ outcome (decrypt_call P record masterKeyHex e')
       = match JSON_parse P json with
         | Some value => Ok value
         | None => Throw DECRYPTION_FAILED
         end.
Proof.
  intros Hp Hk Hj.
  assert (Hmk : parseMasterKeyHex masterKeyHex = Ok (Buffer_from_hex masterKeyHex))
    by now apply parseMasterKeyHex_ok.
  pose proof (hex_of_length_decoded _ _ Hk) as Hlen.
  eexists. split.
  - unfold encrypt_call, outcome.
    rewrite (encrypt_sealed P L
               {| arguments := {| enc_partyId := party;
                                  enc_payload := payload;
                                  enc_masterKeyHex := masterKeyHex |};
                  entropy := e |} _ json Hp Hmk Hj).
    reflexivity.
  - cbn [arguments entropy enc_partyId].
    rewrite (decrypt_call_well_shaped P _ masterKeyHex
               (Buffer_from_hex masterKeyHex) e');
      [| apply validateRecordShape_ok, sealed_well_shaped;
         [exact L|exact Hp|exact (stringify_nonempty L _ _ Hj)|exact Hlen]
       | exact Hmk].
    now rewrite (open_sealed P L) by exact Hlen.
Qed.

(** C1, as amended: for every payload whose JSON text is defined and parses
    back to the payload, every non-empty party and every master key of 64 hex
    digits, [encryptTransaction] returns a record, and [decryptTransaction] on
    that record with the same key returns the payload. *)
Theorem round_trip (P : Platform) (L : PlatformLaws P)
        (party : string) (payload : JSValue P) (masterKeyHex json : string)
        (e e' : Entropy P) :
  party <> "" ->
  hex_of_length masterKeyHex KEY_BYTES ->
  JSON_stringify P payload = Ok (Some json) ->
  JSON_parse P json = Some payload ->
  exists record,
    outcome (encrypt_call P party payload masterKeyHex e) = Ok record
    /\ outcome (decrypt_call P record masterKeyHex e') = Ok payload.
Proof.
  intros Hp Hk Hj Hparse.
  destruct (decrypt_encrypt P L party payload masterKeyHex json e e' Hp Hk Hj)
    as (record & Henc & Hdec).
  exists record. split; [exact Henc|]. now rewrite Hdec, Hparse.
Qed.

(** The sample payload of the reference platform makes the round trip. *)
Lemma round_trip_witness :
  "party_123" <> ""
  /\ hex_of_length Reference.MASTER_KEY_HEX KEY_BYTES
  /\ exists record,
       outcome (Reference.encrypt_sample Reference.sample_payload 7) = Ok record
       /\ outcome (Reference.decrypt_with record Reference.MASTER_KEY_HEX 0)
          = Ok Reference.sample_payload.
Proof.
  split; [discriminate|]. split; [split; reflexivity|].
  apply (round_trip Reference.platform ReferenceFacts.laws "party_123"
           Reference.sample_payload Reference.MASTER_KEY_HEX
           ("{" ++ property "amount" "100" ++ "," ++ property "currency" (QuoteJSONString "AED") ++ "}"));
    [discriminate|split; reflexivity|reflexivity|reflexivity].
Defined.

(** C1 as stated fails: the JSON text of the array with one [undefined]
    element is defined, the text is [[null]], and decryption returns the array
    with one [null] element. *)
Lemma round_trip_fails_on_undefined_element :
  JSON_stringify Reference.platform Reference.sparse_payload = Ok (Some "[null]")
  /\ outcome (Reference.encrypt_sample Reference.sparse_payload 7)
     = Ok Reference.sparse_record
  /\ outcome (Reference.decrypt_with Reference.sparse_record
                Reference.MASTER_KEY_HEX 0)
     = Ok (Reference.VArray [Reference.VNull])
  /\ Reference.VArray [Reference.VNull] <> Reference.sparse_payload.
Proof.
  split; [reflexivity|]. split; [vm_compute; reflexivity|].
  split; [vm_compute; reflexivity|discriminate].
Qed.

(** ** The associated data determines the metadata *)

Lemma append_assoc (a b c : string) : (a ++ b) ++ c = a ++ (b ++ c).
Proof. induction a as [|x a IH]; cbn; [reflexivity|now rewrite IH]. Qed.

Lemma append_inj_l (a x y : string) : a ++ x = a ++ y -> x = y.
Proof. induction a as [|c a IH]; cbn; [auto|]. intros [= H]. auto. Qed.

(** Reading back one escaped character. *)
Lemma parse_escape_char (c : ascii) (rest : string) :
  Reference.parse_string_body (escape_char c ++ rest) =
  match Reference.parse_string_body rest with
  | Some (str, after) => Some (String c str, after)
  | None => None
  end.
Proof.
  destruct c as [[] [] [] [] [] [] [] []]; reflexivity.
Qed.

Lemma parse_escape_chars (s rest : string) :
  Reference.parse_string_body (escape_chars s ++ String dquote rest) = Some (s, rest).
Proof.
  induction s as [|c s IH]; [reflexivity|].
  cbn [escape_chars]. rewrite append_assoc, parse_escape_char, IH. reflexivity.
Qed.

Lemma quote_append (s rest : string) :
  QuoteJSONString s ++ rest = String dquote (escape_chars s ++ String dquote rest).
Proof. unfold QuoteJSONString. cbn [append]. now rewrite append_assoc. Qed.

Lemma quote_append_inj (s s' rest rest' : string) :
  QuoteJSONString s ++ rest = QuoteJSONString s' ++ rest' -> s = s' /\ rest = rest'.
Proof.
  rewrite !quote_append. intros [= H].
  apply (f_equal Reference.parse_string_body) in H.
  rewrite !parse_escape_chars in H. now injection H.
Qed.

Lemma metadataJson_inj (i p c i' p' c' a : string) (v : Z) :
  metadataJson i p c a v = metadataJson i' p' c' a v ->
  i = i' /\ p = p' /\ c = c'.
Proof.
  unfold metadataJson, property. rewrite !append_assoc. intros H.
  apply append_inj_l, append_inj_l, append_inj_l in H.
  apply quote_append_inj in H. destruct H as [-> H].
  apply append_inj_l, append_inj_l, append_inj_l in H.
  apply quote_append_inj in H. destruct H as [-> H].
  apply append_inj_l, append_inj_l, append_inj_l in H.
  apply quote_append_inj in H. destruct H as [-> H].
  auto.
Qed.

Lemma recordAad_inj (r r' : TxSecureRecord) :
  alg r' = alg r -> mk_version r' = mk_version r ->
  recordAad r' = recordAad r -> metadata r' = metadata r.
Proof.
  unfold recordAad, metadata. typed_fields. intros -> -> H.
  apply from_utf8_inj, metadataJson_inj in H.
  destruct H as (-> & -> & ->). reflexivity.
Qed.

(** A record whose [alg] or [mk_version] differs from those of a record that
    passes the validator does not pass it. *)
Remark altered_alg_or_version_is_rejected (P : Platform) (r r' : TxSecureRecord) :
  validateRecordShape P r = Ok tt ->
  alg r' <> alg r \/ mk_version r' <> mk_version r ->
  validateRecordShape P r' <> Ok tt.
Proof.
  intros Hr Hdiff Hr'. apply validateRecordShape_ok in Hr, Hr'.
  destruct Hr as (_ & _ & _ & _ & Ha & Hv & _).
  destruct Hr' as (_ & _ & _ & _ & Ha' & Hv' & _).
  destruct Hdiff as [H|H]; apply H; congruence.
Qed.

(** C2: take a record made by [encryptTransaction] and change its metadata
    (id, partyId, createdAt, alg or mk_version), keeping the nonces, the
    ciphertexts and the tags; let the altered record pass the validator.  The
    associated data recomputed from the altered metadata differs from the one
    the record was sealed with, and, the cipher refusing the wrapped key under
    a different associated data, [decryptTransaction] with the original master
    key throws "decryption failed". *)
Theorem metadata_binding (P : Platform) (L : PlatformLaws P)
        (party : string) (payload : JSValue P) (masterKeyHex : string)
        (e e' : Entropy P) (record record' : TxSecureRecord) :
  outcome (encrypt_call P party payload masterKeyHex e) = Ok record ->
  same_ciphertexts record record' ->
  metadata record' <> metadata record ->
  validateRecordShape P record' = Ok tt ->
  (recordAad record' <> recordAad record ->
   wrap_layer P record (Buffer_from_hex masterKeyHex) (recordAad record') = None) ->
  outcome (decrypt_call P record' masterKeyHex e') = Throw "decryption failed".
Proof.
  intros Hok Hsame Hmeta Hshape Hauth.
  apply (encrypt_ok_inv P L) in Hok.
  cbn [arguments entropy enc_partyId enc_payload enc_masterKeyHex] in Hok.
  destruct Hok as (json & Hp & Hk & Hj & Hrec).
  assert (Hmk : parseMasterKeyHex masterKeyHex = Ok (Buffer_from_hex masterKeyHex))
    by now apply parseMasterKeyHex_ok.
  rewrite (decrypt_call_well_shaped P record' masterKeyHex _ e' Hshape Hmk).
  apply validateRecordShape_ok in Hshape.
  destruct Hshape as (_ & _ & _ & _ & Halg & Hver & _).
  assert (Haad : recordAad record' <> recordAad record).
  { intros Heq. apply Hmeta. apply recordAad_inj; [| |exact Heq].
    - rewrite Halg, Hrec. reflexivity.
    - rewrite Hver, Hrec. reflexivity. }
  specialize (Hauth Haad).
  destruct Hsame as (_ & _ & _ & Hwn & Hwc & Hwt).
  unfold open_layers. unfold wrap_layer in Hauth |- *.
  now rewrite Hwn, Hwc, Hwt, Hauth.
Qed.

(** The sample record with its party changed to [party_999]. *)
Lemma metadata_binding_witness :
  outcome (Reference.encrypt_sample Reference.sample_payload 7)
  = Ok Reference.sample_record
  /\ metadata (with_partyId Reference.sample_record "party_999")
     <> metadata Reference.sample_record
  /\ validateRecordShape Reference.platform
       (with_partyId Reference.sample_record "party_999") = Ok tt
  /\ outcome (Reference.decrypt_with
                (with_partyId Reference.sample_record "party_999")
                Reference.MASTER_KEY_HEX 0)
     = Throw "decryption failed".
Proof.
  assert (Hrun : outcome (Reference.encrypt_sample Reference.sample_payload 7)
                 = Ok Reference.sample_record) by (vm_compute; reflexivity).
  assert (Hmeta : metadata (with_partyId Reference.sample_record "party_999")
                  <> metadata Reference.sample_record)
    by (intros H; vm_compute in H; discriminate H).
  assert (Hshape : validateRecordShape Reference.platform
                     (with_partyId Reference.sample_record "party_999") = Ok tt)
    by (vm_compute; reflexivity).
  split; [exact Hrun|]. split; [exact Hmeta|]. split; [exact Hshape|].
  apply (metadata_binding Reference.platform ReferenceFacts.laws "party_123"
           Reference.sample_payload Reference.MASTER_KEY_HEX 7%N 0%N
           Reference.sample_record
           (with_partyId Reference.sample_record "party_999") Hrun).
  - repeat split.
  - exact Hmeta.
  - exact Hshape.
  - intros _. vm_compute. reflexivity.
Defined.

(** ** Opening a well-shaped record *)

Section Opening.

Variable P : Platform.
Variable record : TxSecureRecord.
Variable masterKeyHex : string.
Variable e : Entropy P.

Hypothesis Hshape : validateRecordShape P record = Ok tt.
Hypothesis Hkey : hex_of_length masterKeyHex KEY_BYTES.

Let masterKey := Buffer_from_hex masterKeyHex.
Let aad := recordAad record.

Lemma opening : outcome (decrypt_call P record masterKeyHex e)
                = open_layers P record masterKey.
Proof.
  apply decrypt_call_well_shaped; [exact Hshape|].
  now apply parseMasterKeyHex_ok.
Qed.

Lemma opening_wrap_fails :
  wrap_layer P record masterKey aad = None ->
  outcome (decrypt_call P record masterKeyHex e) = Throw DECRYPTION_FAILED.
Proof. intros H. rewrite opening. unfold open_layers. fold aad. now rewrite H. Qed.

Lemma opening_short_dek (dek : Buffer) :
  wrap_layer P record masterKey aad = Some dek ->
  length dek <> KEY_BYTES ->
  outcome (decrypt_call P record masterKeyHex e) = Throw DECRYPTION_FAILED.
Proof.
  intros H Hl. rewrite opening. unfold open_layers. fold aad. rewrite H.
  now destruct (Nat.eqb_spec (length dek) KEY_BYTES).
Qed.

Lemma opening_payload_fails (dek : Buffer) :
  wrap_layer P record masterKey aad = Some dek ->
  length dek = KEY_BYTES ->
  payload_layer P record dek aad = None ->
  outcome (decrypt_call P record masterKeyHex e) = Throw DECRYPTION_FAILED.
Proof.
  intros H Hl Hp. rewrite opening. unfold open_layers. fold aad.
  now rewrite H, Hl, Nat.eqb_refl, Hp.
Qed.

Lemma opening_parse_fails (dek plaintext : Buffer) :
  wrap_layer P record masterKey aad = Some dek ->
  length dek = KEY_BYTES ->
  payload_layer P record dek aad = Some plaintext ->
  JSON_parse P (Buffer_toString_utf8 plaintext) = None ->
  outcome (decrypt_call P record masterKeyHex e) = Throw DECRYPTION_FAILED.
Proof.
  intros H Hl Hp Hj. rewrite opening. unfold open_layers. fold aad.
  now rewrite H, Hl, Nat.eqb_refl, Hp, Hj.
Qed.

Lemma opening_throws (msg : string) :
  outcome (decrypt_call P record masterKeyHex e) = Throw msg ->
  msg = DECRYPTION_FAILED.
Proof.
  rewrite opening. unfold open_layers.
  destruct (wrap_layer P record masterKey (recordAad record)) as [dek|];
    [|congruence].
  destruct (length dek =? KEY_BYTES)%nat; [|congruence].
  destruct (payload_layer P record dek (recordAad record)) as [pt|];
    [|congruence].
  destruct (JSON_parse P (Buffer_toString_utf8 pt)); [discriminate|congruence].
Qed.

Lemma masterKey_length : length masterKey = KEY_BYTES.
Proof. now apply hex_of_length_decoded. Qed.

Lemma wrap_call_lengths :
  length (Buffer_from_hex (dek_wrap_nonce record)) = NONCE_BYTES
  /\ length (Buffer_from_hex (dek_wrap_tag record)) = TAG_BYTES.
Proof.
  apply validateRecordShape_ok in Hshape.
  destruct Hshape as (_ & _ & _ & _ & _ & _ & _ & _ & Hwn & Hwt & _).
  split; now apply hex_of_length_decoded.
Qed.

Lemma payload_call_lengths :
  length (Buffer_from_hex (payload_nonce record)) = NONCE_BYTES
  /\ length (Buffer_from_hex (payload_tag record)) = TAG_BYTES.
Proof.
  apply validateRecordShape_ok in Hshape.
  destruct Hshape as (_ & _ & _ & _ & _ & _ & Hpn & Hpt & _).
  split; now apply hex_of_length_decoded.
Qed.

End Opening.

Lemma aesGcmDecrypt_length_error (P : Platform) (key nonce ct tag : Buffer)
      (aad : Buffer) (msg : string) :
  length key = KEY_BYTES -> length nonce = NONCE_BYTES -> length tag = TAG_BYTES ->
  length_error msg ->
  aesGcmDecrypt P key nonce ct tag (Some aad) <> Throw msg.
Proof.
  intros Hk Hn Ht Hmsg. rewrite aesGcmDecrypt_lengths by assumption.
  destruct (aes256gcm_decrypt P key nonce aad ct tag); [discriminate|].
  intros [= <-]. destruct Hmsg as [H|[H|H]]; discriminate H.
Qed.

(** C3: on a record that passes the validator, with a master key that
    parses, every failure after that point throws the one message
    "decryption failed": the wrap layer refused, a recovered DEK that is not 32
    bytes, the payload layer refused, a plaintext that [JSON.parse] rejects;
    and no other message is thrown. *)
Theorem cryptographic_failures_are_opaque (P : Platform) (record : TxSecureRecord)
        (masterKeyHex : string) (e : Entropy P) :
  validateRecordShape P record = Ok tt ->
  hex_of_length masterKeyHex KEY_BYTES ->
  (wrap_layer P record (Buffer_from_hex masterKeyHex) (recordAad record) = None ->
   outcome (decrypt_call P record masterKeyHex e) = Throw "decryption failed")
  /\ (forall dek,
         wrap_layer P record (Buffer_from_hex masterKeyHex) (recordAad record)
         = Some dek ->
         (length dek <> 32
          \/ payload_layer P record dek (recordAad record) = None
          \/ exists plaintext,
               payload_layer P record dek (recordAad record) = Some plaintext
               /\ JSON_parse P (Buffer_toString_utf8 plaintext) = None) ->
         outcome (decrypt_call P record masterKeyHex e) = Throw "decryption failed")
  /\ (forall msg,
         outcome (decrypt_call P record masterKeyHex e) = Throw msg ->
         msg = "decryption failed").
Proof.
  intros Hshape Hkey. split; [|split].
  - now apply opening_wrap_fails.
  - intros dek Hw Hcause.
    destruct (Nat.eq_dec (length dek) KEY_BYTES) as [Hl|Hl].
    + destruct Hcause as [Hne|[Hp|(pt & Hp & Hj)]].
      * contradiction.
      * now apply opening_payload_fails with (dek := dek).
      * now apply opening_parse_fails with (dek := dek) (plaintext := pt).
    + now apply opening_short_dek with (dek := dek).
  - intros msg. now apply opening_throws.
Qed.

(** C8: on a record that passes the validator, with a master key that
    parses, a recovered DEK that is not 32 bytes throws "decryption failed",
    whatever the payload layer holds; and neither call of [aesGcmDecrypt], nor
    the whole call, ever throws one of the wrapper's length errors. *)
Theorem length_checks_are_defensive (P : Platform) (record : TxSecureRecord)
        (masterKeyHex : string) (e : Entropy P) :
  validateRecordShape P record = Ok tt ->
  hex_of_length masterKeyHex KEY_BYTES ->
  (forall dek,
      wrap_layer P record (Buffer_from_hex masterKeyHex) (recordAad record)
      = Some dek ->
      length dek <> 32 ->
      outcome (decrypt_call P record masterKeyHex e) = Throw "decryption failed")
  /\ (forall msg,
         length_error msg ->
         aesGcmDecrypt P (Buffer_from_hex masterKeyHex)
           (Buffer_from_hex (dek_wrap_nonce record))
           (Buffer_from_hex (dek_wrapped record))
           (Buffer_from_hex (dek_wrap_tag record))
           (Some (recordAad record)) <> Throw msg)
  /\ (forall dek msg,
         length dek = 32 ->
         length_error msg ->
         aesGcmDecrypt P dek
           (Buffer_from_hex (payload_nonce record))
           (Buffer_from_hex (payload_ct record))
           (Buffer_from_hex (payload_tag record))
           (Some (recordAad record)) <> Throw msg)
  /\ (forall msg,
         length_error msg ->
         outcome (decrypt_call P record masterKeyHex e) <> Throw msg).
Proof.
  intros Hshape Hkey.
  destruct (wrap_call_lengths P record Hshape) as [Hwn Hwt].
  destruct (payload_call_lengths P record Hshape) as [Hpn Hpt].
  split; [|split; [|split]].
  - intros dek Hw Hl. now apply opening_short_dek with (dek := dek).
  - intros msg Hmsg. apply aesGcmDecrypt_length_error; try assumption.
    now apply masterKey_length.
  - intros dek msg Hl Hmsg. now apply aesGcmDecrypt_length_error.
  - intros msg Hmsg Hout. apply opening_throws in Hout; try assumption.
    subst msg. destruct Hmsg as [H|[H|H]]; discriminate H.
Qed.

(** ** The validator runs first *)

Lemma assertHexLength_throws (hex : string) (n : nat) (field msg : string) :
  assertHexLength hex n field = Throw msg -> hex_field_error field hex n msg.
Proof.
  unfold assertHexLength, hex_field_error.
  destruct (isValidHex hex) eqn:Hv; cbn [negb].
  - destruct (Nat.eqb_spec (String.length hex) (n * 2)) as [|Hl]; cbn [negb];
      intros H; inversion H. right. repeat split.
    unfold decoded_length. apply isValidHex_length in Hv. lia.
  - intros H; inversion H. left. auto.
Qed.

Lemma fromHex_throws (hex field msg : string) :
  fromHex hex field = Throw msg ->
  isValidHex hex = false /\ msg = field ++ ": invalid hex".
Proof.
  unfold fromHex. destruct (isValidHex hex); cbn [negb]; intros H; inversion H.
  auto.
Qed.

Lemma bindO_throws {A B} (m : Outcome A) (k : A -> Outcome B) (msg : string) :
  bindO m k = Throw msg -> m = Throw msg \/ exists a, m = Ok a /\ k a = Throw msg.
Proof. destruct m as [a|e]; cbn; intros H; [right; eauto|left; now injection H as ->]. Qed.

Lemma validateRecordShape_throws (P : Platform) (record : TxSecureRecord)
      (msg : string) :
  validateRecordShape P record = Throw msg -> shape_error P record msg.
Proof.
  unfold validateRecordShape, shape_error. typed_fields.
  destruct (falsy (id record)) eqn:H1.
  { intros [= <-]. apply falsy_true in H1. auto. }
  destruct (falsy (partyId record)) eqn:H2.
  { intros [= <-]. apply falsy_true in H2. auto. }
  destruct (falsy (createdAt record)) eqn:H3.
  { intros [= <-]. apply falsy_true in H3. auto 6. }
  destruct (Date_parse_isNaN P (createdAt record)) eqn:H4.
  { intros [= <-]. auto 6. }
  destruct (String.eqb_spec (alg record) SUPPORTED_ALG) as [H5|H5]; cbn [negb].
  2:{ intros [= <-]. auto 7. }
  destruct (Z.eqb_spec (mk_version record) 1) as [H6|H6]; cbn [negb].
  2:{ intros [= <-]. auto 8. }
  intros H.
  apply bindO_throws in H. destruct H as [H|([] & _ & H)].
  { apply assertHexLength_throws in H. auto 9. }
  apply bindO_throws in H. destruct H as [H|([] & _ & H)].
  { apply assertHexLength_throws in H. auto 10. }
  apply bindO_throws in H. destruct H as [H|([] & _ & H)].
  { apply assertHexLength_throws in H. auto 11. }
  apply bindO_throws in H. destruct H as [H|([] & _ & H)].
  { apply assertHexLength_throws in H. auto 12. }
  apply bindO_throws in H. destruct H as [H|(b1 & _ & H)].
  { apply fromHex_throws in H. auto 13. }
  apply bindO_throws in H. destruct H as [H|(b2 & _ & H)].
  { apply fromHex_throws in H. auto 14. }
  discriminate H.
Qed.

Lemma decrypt_shape_error {S : Type} {F : StringField S} (P : Platform)
      (record : RecordOf S) (masterKeyHex : string) (e : Entropy P)
      (msg : string) :
  validateRecordShape P record = Throw msg ->
  decrypt_call P record masterKeyHex e
  = (Throw msg,
     {| arguments := {| dec_record := record; dec_masterKeyHex := masterKeyHex |};
        entropy := e |}).
Proof.
  intros H. unfold decrypt_call, decryptTransaction, bind, getArguments, liftO.
  cbn [arguments dec_record]. now rewrite H.
Qed.

Lemma validateRecordShape_platform {S : Type} {F : StringField S}
      (P P' : Platform) (record : RecordOf S) :
  Date_parse_isNaN P' (as_string (createdAt record))
  = Date_parse_isNaN P (as_string (createdAt record)) ->
  validateRecordShape P' record = validateRecordShape P record.
Proof. intros H. unfold validateRecordShape. now rewrite H. Qed.

Lemma guard_present (x : Dynamic) :
  falsy_value x || negb (typeof_string x) = negb (present x).
Proof. destruct x as [|[]|[|a s]]; reflexivity. Qed.

Lemma assertHexLength_hex_bytes (hex : string) (n : nat) (field : string) :
  assertHexLength hex n field
  = if hex_bytes hex n then Ok tt else Throw (hex_message field hex).
Proof.
  unfold assertHexLength, hex_bytes, hex_message.
  destruct (isValidHex hex); cbn [negb andb]; [|reflexivity].
  now destruct (String.length hex =? n * 2)%nat.
Qed.

Lemma fromHex_isValidHex (hex field : string) :
  fromHex hex field
  = if isValidHex hex then Ok (Buffer_from_hex hex)
    else Throw (field ++ ": invalid hex").
Proof. unfold fromHex. now destruct (isValidHex hex). Qed.

(** The validator throws the message of the first check that the object does
    not meet, and returns when there is none. *)
Lemma validateRecordShape_first_unmet (P : Platform) (record : RecordOf Dynamic) :
  validateRecordShape P record
  = match first_unmet P record with
    | Some check => Throw (shape_message record check)
    | None => Ok tt
    end.
Proof.
  unfold validateRecordShape, first_unmet, SHAPE_CHECKS, find, meets.
  rewrite !guard_present, !assertHexLength_hex_bytes, !fromHex_isValidHex.
  destruct (present (id record)); cbn [negb]; [|reflexivity].
  destruct (present (partyId record)); cbn [negb]; [|reflexivity].
  destruct (present (createdAt record)) eqn:Hc; cbn [negb]; [|reflexivity].
  destruct (createdAt record) as [|t|c]; try discriminate Hc.
  cbn [parses as_string dynamic_field].
  destruct (Date_parse_isNaN P c); cbn [negb]; [reflexivity|].
  destruct (alg record =? SUPPORTED_ALG)%string; cbn [negb]; [|reflexivity].
  destruct (mk_version record =? 1)%Z; cbn [negb]; [|reflexivity].
  destruct (hex_bytes (payload_nonce record) NONCE_BYTES);
    cbn [negb bindO]; [|reflexivity].
  destruct (hex_bytes (payload_tag record) TAG_BYTES);
    cbn [negb bindO]; [|reflexivity].
  destruct (hex_bytes (dek_wrap_nonce record) NONCE_BYTES);
    cbn [negb bindO]; [|reflexivity].
  destruct (hex_bytes (dek_wrap_tag record) TAG_BYTES);
    cbn [negb bindO]; [|reflexivity].
  destruct (isValidHex (payload_ct record)); cbn [negb bindO]; [|reflexivity].
  destruct (isValidHex (dek_wrapped record)); cbn [negb bindO]; reflexivity.
Qed.

Lemma find_first {A} (p : A -> bool) (before : list A) (x : A) (after : list A) :
  forallb p before = true -> p x = false ->
  find (fun a => negb (p a)) (before ++ x :: after)%list = Some x.
Proof.
  induction before as [|b before IH]; cbn; intros Hb Hx.
  - now rewrite Hx.
  - apply andb_prop in Hb. destruct Hb as [-> Hb]. cbn. now apply IH.
Qed.

Lemma find_none_forallb {A} (p : A -> bool) (l : list A) :
  find (fun a => negb (p a)) l = None <-> forallb p l = true.
Proof.
  induction l as [|a l IH]; cbn; [tauto|].
  destruct (p a); cbn; [exact IH|]. split; discriminate.
Qed.

Lemma find_some_split {A} (p : A -> bool) (l : list A) (x : A) :
  find (fun a => negb (p a)) l = Some x ->
  exists before after,
    l = (before ++ x :: after)%list /\ forallb p before = true /\ p x = false.
Proof.
  induction l as [|a l IH]; cbn; [discriminate|].
  destruct (p a) eqn:Ha; cbn.
  - intros H. destruct (IH H) as (before & after & -> & Hb & Hx).
    exists (a :: before), after. cbn. rewrite Ha, Hb. auto.
  - intros [= <-]. exists [], l. auto.
Qed.

Lemma first_unmet_check_find (P : Platform) (record : RecordOf Dynamic)
      (check : ShapeCheck) :
  first_unmet_check P record check <-> first_unmet P record = Some check.
Proof.
  unfold first_unmet_check, first_unmet. split.
  - intros (before & after & -> & Hb & Hc). now apply find_first.
  - apply find_some_split.
Qed.

Lemma every_shape_check (check : ShapeCheck) : In check SHAPE_CHECKS.
Proof. destruct check; cbn; tauto. Qed.

Lemma meets_every_check (P : Platform) (record : RecordOf Dynamic) :
  (forall check, meets P record check = true) <-> first_unmet P record = None.
Proof.
  unfold first_unmet. rewrite find_none_forallb, forallb_forall. split.
  - intros H check _. apply H.
  - intros H check. apply H, every_shape_check.
Qed.

(** C4: [decryptTransaction] runs the validator first, on whatever object it
    is handed.  When a check is the first one, in the order of [SHAPE_CHECKS],
    that the object does not meet (an [id], [partyId] or [createdAt] that is
    absent, not a string or empty; a [createdAt] that does not parse; an [alg]
    or [mk_version] that is not the supported one; a nonce or tag that is not
    hex of its length; a ciphertext that is not hex), the validator throws the
    message of that check, and [decryptTransaction] throws it whatever the
    master key is (valid or not), leaving the arguments and the entropy as they
    were.  The validator returns exactly on the objects that meet every check.
    An error of the validator is the message of the first unmet check, and is
    the outcome of [decryptTransaction] on every platform that reads the
    timestamp alike, whatever its cipher does.  A record of the declared type
    is validated and decrypted as the object it is. *)
Theorem shape_is_checked_first (P : Platform) (record : RecordOf Dynamic)
        (masterKeyHex : string) (e : Entropy P) :
  (forall check,
      first_unmet_check P record check ->
      validateRecordShape P record = Throw (shape_message record check)
      /\ decrypt_call P record masterKeyHex e
         = (Throw (shape_message record check),
            {| arguments := {| dec_record := record;
                               dec_masterKeyHex := masterKeyHex |};
               entropy := e |}))
  /\ ((forall check, meets P record check = true)
      <-> validateRecordShape P record = Ok tt)
  /\ (forall msg,
         validateRecordShape P record = Throw msg ->
         (exists check,
             first_unmet_check P record check
             /\ msg = shape_message record check)
         /\ outcome (decrypt_call P record masterKeyHex e) = Throw msg
         /\ (forall (P' : Platform) (e' : Entropy P'),
                Date_parse_isNaN P' (as_string (createdAt record))
                = Date_parse_isNaN P (as_string (createdAt record)) ->
                outcome (decrypt_call P' record masterKeyHex e') = Throw msg))
  /\ (forall typed : TxSecureRecord,
         record = object_of typed ->
         validateRecordShape P typed = validateRecordShape P record
         /\ outcome (decrypt_call P typed masterKeyHex e)
            = outcome (decrypt_call P record masterKeyHex e)).
Proof.
  pose proof (validateRecordShape_first_unmet P record) as Hv.
  split; [|split; [|split]].
  - intros check Hcheck. apply first_unmet_check_find in Hcheck.
    rewrite Hcheck in Hv. split; [exact Hv|].
    now apply decrypt_shape_error.
  - rewrite meets_every_check. rewrite Hv.
    destruct (first_unmet P record); split; congruence.
  - intros msg Hmsg. split; [|split].
    + rewrite Hmsg in Hv.
      destruct (first_unmet P record) as [check|] eqn:Hf; [|discriminate].
      exists check. split; [now apply first_unmet_check_find|congruence].
    + now rewrite (decrypt_shape_error P record masterKeyHex e msg Hmsg).
    + intros P' e' Hdate.
      rewrite (decrypt_shape_error P' record masterKeyHex e' msg); [reflexivity|].
      now rewrite (validateRecordShape_platform P P').
  - intros typed ->. split; [reflexivity|].
    symmetry. apply decrypt_call_object.
Qed.

(** The sample record with a one-byte [payload_nonce], the same without its
    [id], and a key that is not hex. *)
Lemma shape_is_checked_first_witness :
  first_unmet_check Reference.platform (object_of one_byte_nonce) PayloadNonceHex
  /\ first_unmet_check Reference.platform
       (without_id (object_of one_byte_nonce)) IdRequired
  /\ parseMasterKeyHex "zz" = Throw "master key: invalid hex"
  /\ outcome (decrypt_call Reference.platform (object_of one_byte_nonce) "zz" 0%N)
     = Throw "payload_nonce: invalid length"
  /\ outcome (decrypt_call Reference.platform
                (without_id (object_of one_byte_nonce)) "zz" 0%N)
     = Throw "id is required".
Proof.
  assert (H1 : first_unmet_check Reference.platform (object_of one_byte_nonce)
                 PayloadNonceHex).
  { exists [IdRequired; PartyIdRequired; CreatedAtRequired; CreatedAtFormat;
            AlgSupported; VersionSupported],
           [PayloadTagHex; WrapNonceHex; WrapTagHex; PayloadCtHex; WrappedDekHex].
    repeat split; vm_compute; reflexivity. }
  assert (H2 : first_unmet_check Reference.platform
                 (without_id (object_of one_byte_nonce)) IdRequired).
  { exists [], [PartyIdRequired; CreatedAtRequired; CreatedAtFormat;
                AlgSupported; VersionSupported; PayloadNonceHex;
                PayloadTagHex; WrapNonceHex; WrapTagHex; PayloadCtHex;
                WrappedDekHex].
    repeat split; vm_compute; reflexivity. }
  split; [exact H1|]. split; [exact H2|]. split; [reflexivity|]. split.
  - exact (f_equal fst
             (proj2 (proj1 (shape_is_checked_first Reference.platform
                              (object_of one_byte_nonce) "zz" 0%N)
                       PayloadNonceHex H1))).
  - exact (f_equal fst
             (proj2 (proj1 (shape_is_checked_first Reference.platform
                              (without_id (object_of one_byte_nonce)) "zz" 0%N)
                       IdRequired H2))).
Defined.

Lemma same_fields_eq (r1 r2 : TxSecureRecord) : same_fields r1 r2 -> r1 = r2.
Proof.
  destruct r1, r2. unfold same_fields, metadata, binary_fields. cbn.
  intros [Hm Hb]. injection Hm as -> -> -> -> ->.
  injection Hb as -> -> -> -> -> ->. reflexivity.
Qed.

Lemma encrypt_depends_on_entropy :
  outcome (Reference.encrypt_sample Reference.sample_payload 7)
  <> outcome (Reference.encrypt_sample Reference.sample_payload 8).
Proof.
  intros H. apply (f_equal (fun o => id (Reference.returned o))) in H.
  vm_compute in H. discriminate H.
Qed.

(** C9: two calls of [decryptTransaction] on records with the same fields and
    on the same key have the same outcome, whatever the states of the random
    source and of the clock, and a call consumes no entropy; two calls of
    [encryptTransaction] on the same arguments can differ. *)
Theorem decrypt_is_deterministic (P : Platform) (r1 r2 : TxSecureRecord)
        (key1 key2 : string) (e1 e2 : Entropy P) :
  same_fields r1 r2 -> key1 = key2 ->
  outcome (decrypt_call P r1 key1 e1) = outcome (decrypt_call P r2 key2 e2)
  /\ entropy_after (decrypt_call P r1 key1 e1) = e1
  /\ outcome (Reference.encrypt_sample Reference.sample_payload 7)
     <> outcome (Reference.encrypt_sample Reference.sample_payload 8).
Proof.
  intros Hr ->. apply same_fields_eq in Hr. subst r2.
  unfold decrypt_call, outcome, entropy_after. split; [|split].
  - apply (proj2 (reads_decryptTransaction P _)). reflexivity.
  - now rewrite (proj1 (reads_decryptTransaction P _)).
  - exact encrypt_depends_on_entropy.
Qed.

(** The sample record, opened under two states of the random source. *)
Lemma decrypt_is_deterministic_witness :
  outcome (decrypt_call Reference.platform Reference.sample_record
             Reference.MASTER_KEY_HEX 1%N)
  = outcome (decrypt_call Reference.platform Reference.sample_record
               Reference.MASTER_KEY_HEX 2%N).
Proof.
  exact (proj1 (decrypt_is_deterministic Reference.platform
                  Reference.sample_record Reference.sample_record
                  Reference.MASTER_KEY_HEX Reference.MASTER_KEY_HEX 1%N 2%N
                  (conj eq_refl eq_refl) eq_refl)).
Defined.

(** ** Evaluations on the reference platform *)

(** The sample record with the first byte of [payload_ct] replaced. *)
Lemma cryptographic_failures_are_opaque_witness :
  validateRecordShape Reference.platform
    (with_payload_ct Reference.sample_record
       (tamper_first_byte (payload_ct Reference.sample_record))) = Ok tt
  /\ hex_of_length Reference.MASTER_KEY_HEX KEY_BYTES
  /\ outcome (decrypt_call Reference.platform
                (with_payload_ct Reference.sample_record
                   (tamper_first_byte (payload_ct Reference.sample_record)))
                Reference.MASTER_KEY_HEX 0%N)
     = Throw "decryption failed".
Proof.
  assert (Hshape : validateRecordShape Reference.platform
                     (with_payload_ct Reference.sample_record
                        (tamper_first_byte (payload_ct Reference.sample_record)))
                   = Ok tt) by (vm_compute; reflexivity).
  assert (Hkey : hex_of_length Reference.MASTER_KEY_HEX KEY_BYTES)
    by (split; vm_compute; reflexivity).
  split; [exact Hshape|]. split; [exact Hkey|].
  apply (proj1 (proj2 (cryptographic_failures_are_opaque Reference.platform _
                         Reference.MASTER_KEY_HEX 0%N Hshape Hkey))
           Reference.sample_dek).
  - vm_compute. reflexivity.
  - right. left. vm_compute. reflexivity.
Defined.

(** A record whose wrap layer holds five bytes in the place of a DEK. *)
Lemma length_checks_are_defensive_witness :
  validateRecordShape Reference.platform Reference.short_dek_record = Ok tt
  /\ hex_of_length Reference.MASTER_KEY_HEX KEY_BYTES
  /\ wrap_layer Reference.platform Reference.short_dek_record
       (Buffer_from_hex Reference.MASTER_KEY_HEX)
       (recordAad Reference.short_dek_record) = Some Reference.short_dek
  /\ outcome (decrypt_call Reference.platform Reference.short_dek_record
                Reference.MASTER_KEY_HEX 0%N)
     = Throw "decryption failed".
Proof.
  assert (Hshape : validateRecordShape Reference.platform
                     Reference.short_dek_record = Ok tt)
    by (vm_compute; reflexivity).
  assert (Hkey : hex_of_length Reference.MASTER_KEY_HEX KEY_BYTES)
    by (split; vm_compute; reflexivity).
  assert (Hwrap : wrap_layer Reference.platform Reference.short_dek_record
                    (Buffer_from_hex Reference.MASTER_KEY_HEX)
                    (recordAad Reference.short_dek_record)
                  = Some Reference.short_dek) by (vm_compute; reflexivity).
  split; [exact Hshape|]. split; [exact Hkey|]. split; [exact Hwrap|].
  apply (proj1 (length_checks_are_defensive Reference.platform _
                  Reference.MASTER_KEY_HEX 0%N Hshape Hkey)
           Reference.short_dek Hwrap).
  discriminate.
Defined.

(** The checks of [encryptTransaction] on the reference platform. *)
Example encrypt_checks_sample :
  outcome (encrypt_call Reference.platform "" Reference.VUndefined "zz" 0%N)
  = Throw "partyId is required"
  /\ outcome (encrypt_call Reference.platform "party_123" Reference.VUndefined
                "zz" 0%N)
     = Throw "master key: invalid hex"
  /\ outcome (encrypt_call Reference.platform "party_123" Reference.VUndefined
                "00" 0%N)
     = Throw "master key: invalid length"
  /\ outcome (encrypt_call Reference.platform "party_123" Reference.VUndefined
                Reference.MASTER_KEY_HEX 0%N)
     = Throw "payload is not JSON-serializable".
Proof. repeat split; vm_compute; reflexivity. Qed.

(** * Further properties *)

(** ** More on the hex codec and the validators *)

(** X1: [fromHex] reads back the hex text of every buffer that is not empty;
    the hex text of the empty buffer is the empty text, which it rejects. *)
Theorem fromHex_of_toString_hex (buf : Buffer) (field : string) :
  fromHex (Buffer_toString_hex buf) field
  = match buf with
    | [] => Throw (field ++ ": invalid hex")
    | _ :: _ => Ok buf
    end.
Proof.
  destruct buf as [|b rest]; [reflexivity|].
  rewrite fromHex_ok by (apply isValidHex_toString_hex; discriminate).
  now rewrite from_hex_toString_hex.
Qed.

(** X2: [assertHexLength] accepts exactly the texts that [fromHex] decodes to
    the expected number of bytes; it throws the error of [fromHex] on a text
    that [fromHex] rejects, and "invalid length" on a text that decodes to
    another number of bytes. *)
Theorem assertHexLength_agrees_with_fromHex (hex : string) (n : nat)
        (field : string) :
  (assertHexLength hex n field = Ok tt
   <-> exists buf, fromHex hex field = Ok buf /\ length buf = n)
  /\ (forall msg, fromHex hex field = Throw msg ->
                  assertHexLength hex n field = Throw msg)
  /\ (forall buf, fromHex hex field = Ok buf -> length buf <> n ->
                  assertHexLength hex n field = Throw (field ++ ": invalid length")).
Proof.
  split; [|split].
  - rewrite assertHexLength_ok. split.
    + intros H. exists (Buffer_from_hex hex). split.
      * apply fromHex_ok, H.
      * now apply hex_of_length_decoded.
    + intros (buf & Hf & Hl). pose proof (fromHex_ok_inv _ _ _ Hf) as Hv.
      rewrite (fromHex_ok _ _ Hv) in Hf. injection Hf as <-.
      split; [exact Hv|]. apply isValidHex_length in Hv. lia.
  - intros msg H. apply fromHex_throws in H. destruct H as [Hv ->].
    unfold assertHexLength. now rewrite Hv.
  - intros buf Hf Hl. pose proof (fromHex_ok_inv _ _ _ Hf) as Hv.
    rewrite (fromHex_ok _ _ Hv) in Hf. injection Hf as <-.
    unfold assertHexLength. rewrite Hv. cbn [negb].
    destruct (Nat.eqb_spec (String.length hex) (n * 2)) as [He|]; [|reflexivity].
    apply isValidHex_length in Hv. lia.
Qed.

(** X3: [parseMasterKeyHex] reads back the hex text of every key of 32
    bytes. *)
Theorem parseMasterKeyHex_of_hex (key : Buffer) :
  length key = KEY_BYTES ->
  parseMasterKeyHex (Buffer_toString_hex key) = Ok key.
Proof.
  intros Hl. apply parseMasterKeyHex_ok. split.
  - apply hex_of_length_toString_hex; [exact Hl|discriminate].
  - now rewrite from_hex_toString_hex.
Qed.

Lemma parseMasterKeyHex_of_hex_witness :
  length (Buffer_from_hex Reference.MASTER_KEY_HEX) = KEY_BYTES
  /\ parseMasterKeyHex
       (Buffer_toString_hex (Buffer_from_hex Reference.MASTER_KEY_HEX))
     = Ok (Buffer_from_hex Reference.MASTER_KEY_HEX).
Proof.
  split; [reflexivity|].
  apply (parseMasterKeyHex_of_hex (Buffer_from_hex Reference.MASTER_KEY_HEX)).
  reflexivity.
Defined.

Theorem parseMasterKeyHex_gives_32_bytes (masterKeyHex : string) (key : Buffer) :
  parseMasterKeyHex masterKeyHex = Ok key ->
  length key = 32 /\ String.length masterKeyHex = 64.
Proof.
  intros H. apply parseMasterKeyHex_ok in H. destruct H as [Hk ->].
  split; [now apply hex_of_length_decoded|apply Hk].
Qed.

(** *** The case of the hex digits *)

Lemma upper_hex_char_value (c : ascii) :
  hex_value (upper_hex_char c) = hex_value c.
Proof. destruct c as [[] [] [] [] [] [] [] []]; reflexivity. Qed.

Lemma upper_hex_char_class (c : ascii) :
  hex_class (upper_hex_char c) = hex_class c.
Proof. destruct c as [[] [] [] [] [] [] [] []]; reflexivity. Qed.

Lemma upper_hex_length (s : string) :
  String.length (upper_hex s) = String.length s.
Proof. induction s as [|c s IH]; cbn; congruence. Qed.

Lemma upper_hex_all_chars (s : string) :
  all_chars hex_class (upper_hex s) = all_chars hex_class s.
Proof.
  induction s as [|c s IH]; [reflexivity|].
  cbn. now rewrite upper_hex_char_class, IH.
Qed.

Lemma upper_hex_isValidHex (s : string) : isValidHex (upper_hex s) = isValidHex s.
Proof.
  unfold isValidHex. rewrite upper_hex_length. f_equal.
  destruct s as [|c s]; [reflexivity|].
  exact (upper_hex_all_chars (String c s)).
Qed.

Lemma upper_hex_decoded (s : string) :
  Buffer_from_hex (upper_hex s) = Buffer_from_hex s.
Proof.
  induction s as [|a|a b s IH] using string_pairs_ind; try reflexivity.
  cbn [upper_hex Buffer_from_hex]. rewrite !upper_hex_char_value, IH. reflexivity.
Qed.

Lemma upper_hex_fromHex (s field : string) :
  fromHex (upper_hex s) field = fromHex s field.
Proof. unfold fromHex. now rewrite upper_hex_isValidHex, upper_hex_decoded. Qed.

Lemma upper_hex_assertHexLength (s : string) (n : nat) (field : string) :
  assertHexLength (upper_hex s) n field = assertHexLength s n field.
Proof. unfold assertHexLength. now rewrite upper_hex_isValidHex, upper_hex_length. Qed.

Lemma upper_hex_parseMasterKeyHex (s : string) :
  parseMasterKeyHex (upper_hex s) = parseMasterKeyHex s.
Proof.
  unfold parseMasterKeyHex.
  now rewrite upper_hex_assertHexLength, upper_hex_decoded.
Qed.

Lemma upper_hex_validateRecordShape (P : Platform) (r : TxSecureRecord) :
  validateRecordShape P (map_binary_fields upper_hex r) = validateRecordShape P r.
Proof.
  unfold validateRecordShape, map_binary_fields.
  cbn [id partyId createdAt payload_nonce payload_ct payload_tag
       dek_wrap_nonce dek_wrapped dek_wrap_tag alg mk_version].
  now rewrite !upper_hex_assertHexLength, !upper_hex_fromHex.
Qed.

Lemma decrypt_bad_key (P : Platform) (r : TxSecureRecord)
      (masterKeyHex : string) (e : Entropy P) (msg : string) :
  validateRecordShape P r = Ok tt ->
  parseMasterKeyHex masterKeyHex = Throw msg ->
  outcome (decrypt_call P r masterKeyHex e) = Throw msg.
Proof.
  intros Hv Hk.
  unfold decrypt_call, outcome, decryptTransaction, bind, liftO, getArguments.
  cbn [arguments dec_record dec_masterKeyHex fst snd].
  now rewrite Hv, Hk.
Qed.

Lemma upper_hex_recordAad (r : TxSecureRecord) :
  recordAad (map_binary_fields upper_hex r) = recordAad r.
Proof. reflexivity. Qed.

Lemma upper_hex_open_layers (P : Platform) (r : TxSecureRecord) (key : Buffer) :
  open_layers P (map_binary_fields upper_hex r) key = open_layers P r key.
Proof.
  unfold open_layers, wrap_layer, payload_layer. rewrite upper_hex_recordAad.
  unfold map_binary_fields.
  cbn [payload_nonce payload_ct payload_tag dek_wrap_nonce dek_wrapped
       dek_wrap_tag].
  now rewrite !upper_hex_decoded.
Qed.

(** X4: [decryptTransaction] reads hex digits of either case alike: a record
    with its six binary fields in upper case, opened with the master key in
    upper case, has the outcome of the record and the key as they were. *)
Theorem decrypt_ignores_hex_case (P : Platform) (r : TxSecureRecord)
        (masterKeyHex : string) (e : Entropy P) :
  outcome (decrypt_call P (map_binary_fields upper_hex r)
             (upper_hex masterKeyHex) e)
  = outcome (decrypt_call P r masterKeyHex e).
Proof.
  pose proof (upper_hex_validateRecordShape P r) as Hv.
  pose proof (upper_hex_parseMasterKeyHex masterKeyHex) as Hk.
  destruct (validateRecordShape P r) as [[]|msg] eqn:Hr.
  - destruct (parseMasterKeyHex masterKeyHex) as [key|msg] eqn:Hkey.
    + rewrite (decrypt_call_well_shaped P _ _ key e Hv Hk).
      rewrite (decrypt_call_well_shaped P _ _ key e Hr Hkey).
      apply upper_hex_open_layers.
    + rewrite (decrypt_bad_key P _ _ e msg Hv Hk).
      now rewrite (decrypt_bad_key P _ _ e msg Hr Hkey).
  - unfold outcome.
    rewrite (decrypt_shape_error P _ (upper_hex masterKeyHex) e msg Hv).
    now rewrite (decrypt_shape_error P r masterKeyHex e msg Hr).
Qed.

Example decrypt_upper_case_sample :
  outcome (decrypt_call Reference.platform
             (map_binary_fields upper_hex Reference.sample_record)
             (upper_hex Reference.MASTER_KEY_HEX) 0%N)
  = Ok Reference.sample_payload.
Proof. vm_compute. reflexivity. Qed.

(** ** The AEAD wrapper *)

Lemma aesGcmEncrypt_run_any (P : Platform) {I} (key plaintext : Buffer)
      (aad : option Buffer) (m : Machine (Entropy P) I) :
  length key = KEY_BYTES ->
  aesGcmEncrypt P key plaintext aad m =
  (let r := randomBytes P NONCE_BYTES (entropy m) in
   let sealed := aes256gcm_encrypt P key (fst r) (aad_bytes aad) plaintext in
   (Ok {| nonce := fst r; ciphertext := fst sealed; tag := snd sealed |},
    {| arguments := arguments m; entropy := snd r |})).
Proof.
  intros Hk. unfold aesGcmEncrypt. rewrite Hk, Nat.eqb_refl. cbn [negb].
  unfold bind. rewrite draw_run. reflexivity.
Qed.

(** X5: with a key of 32 bytes, [aesGcmEncrypt] returns a nonce of 12 bytes,
    a tag of 16 bytes and a ciphertext as long as the plaintext, and
    [aesGcmDecrypt] with the same key and the same associated data (given or
    omitted) returns the plaintext. *)
Theorem aesGcm_round_trip (P : Platform) (L : PlatformLaws P)
        (key plaintext : Buffer) (aad : option Buffer) (e : Entropy P) :
  length key = KEY_BYTES ->
  exists sealed,
    outcome (run_aesGcmEncrypt P key plaintext aad e) = Ok sealed
    /\ length (nonce sealed) = 12
    /\ length (tag sealed) = 16
    /\ length (ciphertext sealed) = length plaintext
    /\ aesGcmDecrypt P key (nonce sealed) (ciphertext sealed) (tag sealed) aad
       = Ok plaintext.
Proof.
  intros Hk. unfold run_aesGcmEncrypt, outcome.
  rewrite aesGcmEncrypt_run_any by exact Hk. cbv zeta. cbn [fst arguments entropy].
  eexists. split; [reflexivity|].
  cbn [nonce tag ciphertext].
  pose proof (randomBytes_length L NONCE_BYTES e) as Hn.
  split; [exact Hn|].
  split; [now apply (gcm_tag_length L)|].
  split; [now apply (gcm_ciphertext_length L)|].
  unfold aesGcmDecrypt.
  rewrite Hk, Hn, (gcm_tag_length L) by assumption.
  rewrite !Nat.eqb_refl. cbn [negb].
  now rewrite (gcm_decrypt_encrypt L).
Qed.

Lemma aesGcm_round_trip_witness :
  length Reference.sample_dek = KEY_BYTES
  /\ exists sealed,
       outcome (run_aesGcmEncrypt Reference.platform Reference.sample_dek
                  Reference.short_dek None 3%N) = Ok sealed
       /\ aesGcmDecrypt Reference.platform Reference.sample_dek (nonce sealed)
            (ciphertext sealed) (tag sealed) None = Ok Reference.short_dek.
Proof.
  split; [reflexivity|].
  destruct (aesGcm_round_trip Reference.platform ReferenceFacts.laws
              Reference.sample_dek Reference.short_dek None 3%N eq_refl)
    as (sealed & H1 & _ & _ & _ & H2).
  exists sealed. split; assumption.
Defined.

(** With a key of another length, [aesGcmEncrypt] throws before it draws a
    nonce. *)
Theorem aesGcmEncrypt_rejects_key (P : Platform) (key plaintext : Buffer)
        (aad : option Buffer) (e : Entropy P) :
  length key <> KEY_BYTES ->
  run_aesGcmEncrypt P key plaintext aad e
  = (Throw "key: invalid length", {| arguments := tt; entropy := e |}).
Proof.
  intros Hk. unfold run_aesGcmEncrypt, aesGcmEncrypt.
  now destruct (Nat.eqb_spec (length key) KEY_BYTES).
Qed.


(** ** The errors of [decryptTransaction] *)

Lemma shape_error_not_length_error (P : Platform) (r : TxSecureRecord)
      (msg : string) :
  shape_error P r msg -> ~ length_error msg.
Proof.
  unfold shape_error, hex_field_error, length_error.
  intros H Hl.
  repeat match goal with
         | H : _ \/ _ |- _ => destruct H as [H|H]
         | H : _ /\ _ |- _ => destruct H as [? H]
         end; subst; try discriminate;
    destruct Hl as [Hl|[Hl|Hl]]; discriminate Hl.
Qed.

(** X6: whatever the record and the key, an error of [decryptTransaction] is
    an error of the validator that names a defect of the record, or, on a
    record that passes the validator, an error of the master key when the key
    is not 64 hex digits and "decryption failed" when it is; it is never one
    of the length errors of the AEAD wrapper. *)
Theorem decrypt_error_classes (P : Platform) (r : TxSecureRecord)
        (masterKeyHex : string) (e : Entropy P) (msg : string) :
  outcome (decrypt_call P r masterKeyHex e) = Throw msg ->
  (shape_error P r msg
   \/ (validateRecordShape P r = Ok tt
       /\ ~ hex_of_length masterKeyHex KEY_BYTES /\ key_error msg)
   \/ (validateRecordShape P r = Ok tt
       /\ hex_of_length masterKeyHex KEY_BYTES /\ msg = "decryption failed"))
  /\ ~ length_error msg.
Proof.
  intros Hout.
  assert (Hclass :
            shape_error P r msg
            \/ (validateRecordShape P r = Ok tt
                /\ ~ hex_of_length masterKeyHex KEY_BYTES /\ key_error msg)
            \/ (validateRecordShape P r = Ok tt
                /\ hex_of_length masterKeyHex KEY_BYTES
                /\ msg = "decryption failed")).
  { destruct (validateRecordShape P r) as [[]|msg'] eqn:Hr.
    - destruct (parseMasterKeyHex masterKeyHex) as [key|msg'] eqn:Hkey.
      + right; right. pose proof Hkey as Hk.
        apply parseMasterKeyHex_ok in Hk. destruct Hk as [Hk _].
        split; [reflexivity|]. split; [exact Hk|].
        now apply (opening_throws P r masterKeyHex e Hr Hk).
      + right; left. rewrite (decrypt_bad_key P r _ e msg' Hr Hkey) in Hout.
        injection Hout as <-. split; [reflexivity|].
        apply parseMasterKeyHex_throws in Hkey. split.
        * intros [Hv Hl]. destruct Hkey as [[Hf _]|(_ & Hn & _)];
            [congruence|contradiction].
        * destruct Hkey as [[_ ->]|(_ & _ & ->)]; [now left|now right].
    - left. unfold outcome in Hout.
      rewrite (decrypt_shape_error P r masterKeyHex e msg' Hr) in Hout.
      injection Hout as <-. now apply validateRecordShape_throws. }
  split; [exact Hclass|].
  destruct Hclass as [H|[(_ & _ & H)|(_ & _ & ->)]].
  - now apply shape_error_not_length_error with (P := P) (r := r).
  - intros [Hl|[Hl|Hl]]; destruct H as [H|H]; subst; discriminate.
  - intros [Hl|[Hl|Hl]]; discriminate Hl.
Qed.

Lemma decrypt_error_classes_witness :
  outcome (decrypt_call Reference.platform Reference.sample_record "00" 0%N)
  = Throw "master key: invalid length"
  /\ ~ length_error "master key: invalid length".
Proof.
  assert (H : outcome (decrypt_call Reference.platform Reference.sample_record
                         "00" 0%N) = Throw "master key: invalid length")
    by (vm_compute; reflexivity).
  split; [exact H|].
  exact (proj2 (decrypt_error_classes Reference.platform Reference.sample_record
                  "00" 0%N "master key: invalid length" H)).
Defined.

(** ** When [encryptTransaction] succeeds, and what it draws *)

(** X7: [encryptTransaction] returns a record exactly when the party is not
    empty, the master key is 64 hex digits, and the JSON text of the payload is
    defined. *)
Theorem encrypt_succeeds_iff (P : Platform) (L : PlatformLaws P)
        (party : string) (payload : JSValue P) (masterKeyHex : string)
        (e : Entropy P) :
  (exists record,
      outcome (encrypt_call P party payload masterKeyHex e) = Ok record)
  <-> (party <> "" /\ hex_of_length masterKeyHex KEY_BYTES
       /\ exists json, JSON_stringify P payload = Ok (Some json)).
Proof.
  split.
  - intros [record Hok]. apply (encrypt_ok_inv P L) in Hok.
    cbn [arguments entropy enc_partyId enc_payload enc_masterKeyHex] in Hok.
    destruct Hok as (json & Hp & Hk & Hj & _). eauto.
  - intros (Hp & Hk & json & Hj).
    destruct (decrypt_encrypt P L party payload masterKeyHex json e e Hp Hk Hj)
      as (record & Henc & _).
    eauto.
Qed.

Lemma encrypt_succeeds_iff_witness :
  exists record,
    outcome (encrypt_call Reference.platform "party_123"
               Reference.sample_payload Reference.MASTER_KEY_HEX 7%N)
    = Ok record.
Proof.
  apply (proj2 (encrypt_succeeds_iff Reference.platform ReferenceFacts.laws
                  "party_123" Reference.sample_payload
                  Reference.MASTER_KEY_HEX 7%N)).
  split; [discriminate|]. split; [split; reflexivity|].
  eexists. reflexivity.
Defined.

(** X8: what [encryptTransaction] draws.  A call refused for its party or its
    key draws nothing; a call refused for a payload without JSON text has
    drawn the 32 bytes of the DEK; a call that returns a record has drawn the
    DEK, the id, the timestamp and the two nonces in this order, and the
    record holds that id, that timestamp and those nonces. *)
Theorem encrypt_entropy (P : Platform) (L : PlatformLaws P)
        (party : string) (payload : JSValue P) (masterKeyHex : string)
        (e : Entropy P) :
  (party = "" \/ ~ hex_of_length masterKeyHex KEY_BYTES ->
   entropy_after (encrypt_call P party payload masterKeyHex e) = e)
  /\ (party <> "" -> hex_of_length masterKeyHex KEY_BYTES ->
      JSON_stringify P payload = Ok None ->
      entropy_after (encrypt_call P party payload masterKeyHex e)
      = snd (randomBytes P KEY_BYTES e))
  /\ (forall record,
         outcome (encrypt_call P party payload masterKeyHex e) = Ok record ->
         entropy_after (encrypt_call P party payload masterKeyHex e)
         = entropy_left (draws P e)
         /\ id record = drawn_id (draws P e)
         /\ createdAt record = drawn_createdAt (draws P e)
         /\ Buffer_from_hex (payload_nonce record) = drawn_payload_nonce (draws P e)
         /\ Buffer_from_hex (dek_wrap_nonce record) = drawn_wrap_nonce (draws P e)).
Proof.
  set (m := {| arguments := {| enc_partyId := party;
                               enc_payload := payload;
                               enc_masterKeyHex := masterKeyHex |};
               entropy := e |}).
  unfold encrypt_call, entropy_after, outcome. fold m.
  split; [|split].
  - intros Hrej.
    destruct (string_dec party "") as [Hp|Hp].
    + now rewrite (encrypt_missing_party P m Hp).
    + destruct Hrej as [Hrej|Hrej]; [contradiction|].
      destruct (parseMasterKeyHex_total masterKeyHex) as [Hk|[msg Hk]];
        [contradiction|].
      now rewrite (encrypt_bad_key P m msg Hp Hk).
  - intros Hp Hk Hj.
    assert (Hmk : exists mk, parseMasterKeyHex masterKeyHex = Ok mk).
    { exists (Buffer_from_hex masterKeyHex). now apply parseMasterKeyHex_ok. }
    pose proof (encrypt_stringify P m (Ok None) Hp Hmk Hj) as Hrun.
    cbn beta iota in Hrun. now rewrite Hrun.
  - intros record Hok. pose proof Hok as Hinv.
    apply (encrypt_ok_inv P L m) in Hinv.
    destruct Hinv as (json & Hp & Hk & Hj & ->).
    assert (Hmk : parseMasterKeyHex masterKeyHex
                  = Ok (Buffer_from_hex masterKeyHex))
      by now apply parseMasterKeyHex_ok.
    rewrite (encrypt_sealed P L m _ json Hp Hmk Hj). cbn [snd entropy].
    unfold sealed_record. cbv zeta.
    cbn [id createdAt payload_nonce dek_wrap_nonce].
    now rewrite !from_hex_toString_hex.
Qed.

(** X9: the two layers of a record made by [encryptTransaction].  The record
    carries the party it was given; under the master key and the associated
    data of the record the wrap layer opens to a DEK of 32 bytes, and under
    that DEK and the same associated data the payload layer opens to the bytes
    of the JSON text of the payload. *)
Theorem envelope_structure (P : Platform) (L : PlatformLaws P)
        (party : string) (payload : JSValue P) (masterKeyHex : string)
        (e : Entropy P) (record : TxSecureRecord) :
  outcome (encrypt_call P party payload masterKeyHex e) = Ok record ->
  partyId record = party
  /\ exists dek json,
       length dek = 32
       /\ JSON_stringify P payload = Ok (Some json)
       /\ wrap_layer P record (Buffer_from_hex masterKeyHex) (recordAad record)
          = Some dek
       /\ payload_layer P record dek (recordAad record)
          = Some (Buffer_from_utf8 json).
Proof.
  intros Hok. apply (encrypt_ok_inv P L) in Hok.
  cbn [arguments entropy enc_partyId enc_payload enc_masterKeyHex] in Hok.
  destruct Hok as (json & Hp & Hk & Hj & ->).
  split; [reflexivity|].
  exists (drawn_dek (draws P e)), json.
  pose proof (drawn_dek_length P L e) as Hdek.
  pose proof (drawn_payload_nonce_length P L e) as Hpn.
  pose proof (drawn_wrap_nonce_length P L e) as Hwn.
  pose proof (hex_of_length_decoded _ _ Hk) as Hmk.
  split; [exact Hdek|]. split; [exact Hj|].
  unfold wrap_layer, payload_layer, sealed_record, recordAad. cbv zeta.
  cbn [id partyId createdAt payload_nonce payload_ct payload_tag
       dek_wrap_nonce dek_wrapped dek_wrap_tag alg mk_version].
  rewrite !from_hex_toString_hex.
  split; now apply (gcm_decrypt_encrypt L).
Qed.

Lemma envelope_structure_witness :
  outcome (encrypt_call Reference.platform "party_123" Reference.sample_payload
             Reference.MASTER_KEY_HEX 7%N) = Ok Reference.sample_record
  /\ partyId Reference.sample_record = "party_123".
Proof.
  assert (Hrun : outcome (encrypt_call Reference.platform "party_123"
                            Reference.sample_payload Reference.MASTER_KEY_HEX
                            7%N) = Ok Reference.sample_record)
    by (vm_compute; reflexivity).
  split; [exact Hrun|].
  exact (proj1 (envelope_structure Reference.platform ReferenceFacts.laws
                  "party_123" Reference.sample_payload
                  Reference.MASTER_KEY_HEX 7%N Reference.sample_record Hrun)).
Defined.

(** ** The store *)

Lemma Map_get_set_eq (key : string) (value : TxSecureRecord) (m : RecordMap) :
  Map_get key (Map_set key value m) = Some value.
Proof.
  induction m as [|[k v] m IH]; cbn.
  - now rewrite String.eqb_refl.
  - destruct (String.eqb_spec k key) as [->|Hne]; cbn.
    + now rewrite String.eqb_refl.
    + destruct (String.eqb_spec k key); [contradiction|exact IH].
Qed.

Lemma Map_get_set_ne (key key' : string) (value : TxSecureRecord) (m : RecordMap) :
  key' <> key -> Map_get key' (Map_set key value m) = Map_get key' m.
Proof.
  intros Hne. induction m as [|[k v] m IH]; cbn.
  - destruct (String.eqb_spec key key'); [congruence|reflexivity].
  - destruct (String.eqb_spec k key) as [->|Hk]; cbn.
    + destruct (String.eqb_spec key key'); [congruence|reflexivity].
    + destruct (String.eqb_spec k key'); [reflexivity|exact IH].
Qed.

Lemma Map_set_get_id (key : string) (value : TxSecureRecord) (m : RecordMap) :
  Map_get key m = Some value -> Map_set key value m = m.
Proof.
  induction m as [|[k v] m IH]; cbn; [discriminate|].
  destruct (String.eqb_spec k key) as [->|Hk].
  - now intros [= ->].
  - intros H. now rewrite IH.
Qed.

Lemma Map_keys_set (key : string) (value : TxSecureRecord) (m : RecordMap) :
  forall k, In k (Map_keys (Map_set key value m)) <-> k = key \/ In k (Map_keys m).
Proof.
  unfold Map_keys. induction m as [|[k' v] m IH]; intros k; cbn.
  - intuition.
  - destruct (String.eqb_spec k' key) as [->|Hk]; cbn.
    + intuition.
    + rewrite IH. intuition.
Qed.

Lemma Map_set_NoDup (key : string) (value : TxSecureRecord) (m : RecordMap) :
  NoDup (Map_keys m) -> NoDup (Map_keys (Map_set key value m)).
Proof.
  induction m as [|[k v] m IH]; cbn; intros H.
  - constructor; [intros []|constructor].
  - inversion H as [|? ? Hin Hnd]; subst.
    destruct (String.eqb_spec k key) as [->|Hk]; cbn.
    + now constructor.
    + constructor; [|now apply IH].
      intros Hin'. apply (Map_keys_set key value m k) in Hin'.
      destruct Hin' as [->|Hin']; [congruence|contradiction].
Qed.

(** ** The routes *)

Section RouteFacts.

Variable P : Platform.
Variable env : option string.

Lemma server_eta (srv : Server (Entropy P)) :
  {| store := store srv; server_entropy := server_entropy srv |} = srv.
Proof. now destruct srv. Qed.

Lemma decrypt_call_machine (record : TxSecureRecord) (key : string)
      (e : Entropy P) :
  snd (decrypt_call P record key e)
  = {| arguments := {| dec_record := record; dec_masterKeyHex := key |};
       entropy := e |}.
Proof. apply (proj1 (reads_decryptTransaction P _)). Qed.

Lemma getMasterKeyHex_ok (key : string) :
  getMasterKeyHex env = Ok key <-> env = Some key /\ key <> "".
Proof.
  unfold getMasterKeyHex. destruct env as [k|]; [|split; [discriminate|]].
  - destruct k as [|c k]; cbn.
    + split; [discriminate|]. intros [[= <-] H]. congruence.
    + split; [intros [= <-]; split; [reflexivity|discriminate]|].
      now intros [[= <-] _].
  - intros [H _]. discriminate.
Qed.

Lemma getMasterKeyHex_throws (msg : string) :
  getMasterKeyHex env = Throw msg ->
  (env = None \/ env = Some "") /\ msg = "MASTER_KEY_HEX is not set".
Proof.
  unfold getMasterKeyHex. destruct env as [[|c k]|]; cbn; intros [= <-]; auto.
Qed.

(** X12: [GET /tx/:id] and [POST /tx/:id/decrypt] leave the server as it
    was, the store and the random source, whatever they answer; the record
    that the decrypt route hands to [decryptTransaction] is the stored object
    and comes back unchanged. *)
Theorem read_routes_keep_the_server (params_id : string)
        (srv : Server (Entropy P)) :
  snd (get_tx P params_id srv) = srv
  /\ snd (post_tx_decrypt P env params_id srv) = srv.
Proof.
  split.
  - unfold get_tx. now destruct (Map_get params_id (store srv)).
  - unfold post_tx_decrypt.
    destruct (Map_get params_id (store srv)) as [record|] eqn:Hget;
      [|reflexivity].
    destruct (getMasterKeyHex env) as [key|msg]; [|reflexivity].
    cbv zeta. unfold arguments_after, entropy_after.
    pose proof (decrypt_call_machine record key (server_entropy srv)) as Hm.
    unfold decrypt_call in Hm. rewrite Hm. cbn [arguments entropy dec_record].
    rewrite (Map_set_get_id _ _ _ Hget), server_eta.
    now destruct (outcome _).
Qed.

End RouteFacts.

Section RouteFacts2.

Variable P : Platform.
Variable env : option string.

(** X10: when [POST /tx/encrypt] answers 201, the body is a record, [GET
    /tx/:id] with the id of that record answers 200 with the same record, and
    the entries of the store under the other ids are as they were. *)
Theorem created_record_is_stored (request_body : RequestBody (JSValue P))
        (srv : Server (Entropy P)) :
  status (fst (post_tx_encrypt P env request_body srv)) = 201 ->
  exists record,
    body (fst (post_tx_encrypt P env request_body srv)) = RecordBody record
    /\ get_tx P (id record) (snd (post_tx_encrypt P env request_body srv))
       = ({| status := 200; body := RecordBody record |},
          snd (post_tx_encrypt P env request_body srv))
    /\ forall key,
         key <> id record ->
         Map_get key (store (snd (post_tx_encrypt P env request_body srv)))
         = Map_get key (store srv).
Proof.
  unfold post_tx_encrypt.
  destruct (isRecordInput request_body) as [input|]; [|discriminate].
  destruct (getMasterKeyHex env) as [key|msg]; [|discriminate].
  cbv zeta. destruct (outcome _) as [record|msg]; [|discriminate].
  intros _. exists record. cbn [fst snd body store].
  split; [reflexivity|]. split.
  - unfold get_tx. cbn [store]. now rewrite Map_get_set_eq.
  - intros k Hk. now apply Map_get_set_ne.
Qed.

(** X11: when [POST /tx/encrypt] does not answer 201, it answers 400 with
    an error message and the store is as it was. *)
Theorem refused_request_stores_nothing (request_body : RequestBody (JSValue P))
        (srv : Server (Entropy P)) :
  status (fst (post_tx_encrypt P env request_body srv)) <> 201 ->
  status (fst (post_tx_encrypt P env request_body srv)) = 400
  /\ (exists message,
         body (fst (post_tx_encrypt P env request_body srv)) = ErrorBody message)
  /\ store (snd (post_tx_encrypt P env request_body srv)) = store srv.
Proof.
  unfold post_tx_encrypt.
  destruct (isRecordInput request_body) as [input|]; [|cbn; eauto].
  destruct (getMasterKeyHex env) as [key|msg]; [|cbn; eauto].
  cbv zeta. destruct (outcome _) as [record|msg]; cbn; [congruence|eauto].
Qed.

(** X13: when the master key of the environment is not set or is empty,
    [POST /tx/encrypt] answers 400 and leaves the server as it was, whatever
    the body of the request: with "Invalid body" when the body is not a record
    input (it is not an object, or its [partyId] is absent or not a string, or
    it has no [payload]), and with "MASTER_KEY_HEX is not set" otherwise, even
    when the party is empty. *)
Theorem encrypt_route_without_key (request_body : RequestBody (JSValue P))
        (srv : Server (Entropy P)) :
  env = None \/ env = Some "" ->
  post_tx_encrypt P env request_body srv
  = match request_body with
    | BodyObject (PartyString _) (Some _) =>
        ({| status := 400; body := ErrorBody KEY_NOT_SET |}, srv)
    | BodyObject _ _ | BodyNotObject =>
        ({| status := 400; body := ErrorBody INVALID_BODY |}, srv)
    end.
Proof.
  intros Henv. unfold post_tx_encrypt.
  assert (Hkey : getMasterKeyHex env = Throw KEY_NOT_SET)
    by (destruct Henv as [->| ->]; reflexivity).
  destruct request_body as [|[| |s] [v|]]; cbn [isRecordInput];
    try reflexivity.
  now rewrite Hkey.
Qed.

(** X14: an id that is not in the store is answered 404 "Record not found"
    by [GET /tx/:id] and by [POST /tx/:id/decrypt], whatever the environment
    holds; on a stored id, the decrypt route answers 400 "MASTER_KEY_HEX is not
    set" when the master key of the environment is not set or is empty. *)
Theorem decrypt_route_order (params_id : string) (srv : Server (Entropy P)) :
  (Map_get params_id (store srv) = None ->
   fst (get_tx P params_id srv) = {| status := 404; body := ErrorBody NOT_FOUND |}
   /\ fst (post_tx_decrypt P env params_id srv)
      = {| status := 404; body := ErrorBody NOT_FOUND |})
  /\ (Map_get params_id (store srv) <> None ->
      env = None \/ env = Some "" ->
      fst (post_tx_decrypt P env params_id srv)
      = {| status := 400; body := ErrorBody KEY_NOT_SET |}).
Proof.
  unfold get_tx, post_tx_decrypt. split.
  - intros ->. split; reflexivity.
  - intros Hsome Henv.
    destruct (Map_get params_id (store srv)) as [record|]; [|congruence].
    destruct Henv as [->| ->]; reflexivity.
Qed.

End RouteFacts2.

Section Running.

Variable P : Platform.
Hypothesis L : PlatformLaws P.
Variable env : option string.

Lemma key_of_64_nonempty (key : string) : hex_of_length key KEY_BYTES -> key <> "".
Proof. intros [_ Hl] ->. discriminate Hl. Qed.

Lemma post_tx_encrypt_store_ok (request_body : RequestBody (JSValue P))
      (srv : Server (Entropy P)) :
  store_ok P env (store srv) ->
  store_ok P env (store (snd (post_tx_encrypt P env request_body srv))).
Proof.
  intros Hok. unfold post_tx_encrypt.
  destruct (isRecordInput request_body) as [input|]; [|exact Hok].
  destruct (getMasterKeyHex env) as [key|msg] eqn:Hkey; [|exact Hok].
  cbv zeta. destruct (outcome _) as [record|msg] eqn:Hout; [|exact Hok].
  cbn [snd store]. intros k r Hget.
  destruct (string_dec k (id record)) as [->|Hne].
  - rewrite Map_get_set_eq in Hget. injection Hget as <-.
    split; [reflexivity|]. exists key.
    apply getMasterKeyHex_ok in Hkey. destruct Hkey as [Henv _].
    apply (encrypt_ok_inv P L) in Hout.
    cbn [arguments entropy enc_partyId enc_payload enc_masterKeyHex] in Hout.
    destruct Hout as (json & Hp & Hk & Hj & Hrec).
    split; [exact Henv|]. split; [exact Hk|].
    exists (body_partyId input), json, (server_entropy srv).
    split; [exact Hp|]. split; [exact (stringify_nonempty L _ _ Hj)|exact Hrec].
  - rewrite Map_get_set_ne in Hget by exact Hne. now apply Hok.
Qed.

Lemma handle_store_ok (request : Request P) (srv : Server (Entropy P)) :
  store_ok P env (store srv) ->
  store_ok P env (store (snd (handle P env request srv))).
Proof.
  intros Hok. destruct request as [|request_body|params_id|params_id];
    cbn [handle].
  - exact Hok.
  - now apply post_tx_encrypt_store_ok.
  - now rewrite (proj1 (read_routes_keep_the_server P env params_id srv)).
  - now rewrite (proj2 (read_routes_keep_the_server P env params_id srv)).
Qed.

Lemma handle_NoDup (request : Request P) (srv : Server (Entropy P)) :
  NoDup (Map_keys (store srv)) ->
  NoDup (Map_keys (store (snd (handle P env request srv)))).
Proof.
  intros Hnd. destruct request as [|request_body|params_id|params_id];
    cbn [handle].
  - exact Hnd.
  - unfold post_tx_encrypt.
    destruct (isRecordInput request_body) as [input|]; [|exact Hnd].
    destruct (getMasterKeyHex env) as [key|msg]; [|exact Hnd].
    cbv zeta. destruct (outcome _) as [record|msg]; [|exact Hnd].
    cbn [snd store]. now apply Map_set_NoDup.
  - now rewrite (proj1 (read_routes_keep_the_server P env params_id srv)).
  - now rewrite (proj2 (read_routes_keep_the_server P env params_id srv)).
Qed.

Lemma serve_invariant (requests : list (Request P)) (srv : Server (Entropy P)) :
  store_ok P env (store srv) /\ NoDup (Map_keys (store srv)) ->
  store_ok P env (store (serve P env requests srv))
  /\ NoDup (Map_keys (store (serve P env requests srv))).
Proof.
  revert srv. induction requests as [|request rest IH]; intros srv [Hok Hnd];
    cbn [serve]; [now split|].
  apply IH. split; [now apply handle_store_ok|now apply handle_NoDup].
Qed.

Lemma start_invariant (e : Entropy P) :
  store_ok P env (store (start P e)) /\ NoDup (Map_keys (store (start P e))).
Proof. split; [intros k r H; discriminate H|constructor]. Qed.

Lemma sealed_under_opens (key : string) (record : TxSecureRecord) (e : Entropy P) :
  hex_of_length key KEY_BYTES ->
  sealed_under P key record ->
  exists json,
    outcome (decrypt_call P record key e)
    = match JSON_parse P json with
      | Some value => Ok value
      | None => Throw DECRYPTION_FAILED
      end.
Proof.
  intros Hk (party & json & e0 & Hp & Hj & ->). exists json.
  pose proof (hex_of_length_decoded _ _ Hk) as Hlen.
  rewrite (decrypt_call_well_shaped P _ key (Buffer_from_hex key) e).
  - now apply (open_sealed P L).
  - apply validateRecordShape_ok. now apply sealed_well_shaped.
  - now apply parseMasterKeyHex_ok.
Qed.

End Running.

(** X15: on a server that started with an empty store and answered any
    sequence of requests, every stored record is stored under its own id and
    passes the validator, the master key of the environment is 64 hex digits
    as soon as a record is stored, and no key occurs twice in the store. *)
Theorem stored_records_are_sound (P : Platform) (L : PlatformLaws P)
        (env : option string) (requests : list (Request P)) (e : Entropy P)
        (key : string) (record : TxSecureRecord) :
  Map_get key (store (serve P env requests (start P e))) = Some record ->
  id record = key
  /\ validateRecordShape P record = Ok tt
  /\ (exists masterKeyHex,
         env = Some masterKeyHex /\ hex_of_length masterKeyHex KEY_BYTES)
  /\ NoDup (Map_keys (store (serve P env requests (start P e)))).
Proof.
  intros Hget.
  destruct (serve_invariant P L env requests (start P e) (start_invariant P env e))
    as [Hok Hnd].
  destruct (Hok key record Hget) as (Hid & mk & Henv & Hk & Hsealed).
  split; [exact Hid|]. split; [|split; [eauto|exact Hnd]].
  destruct Hsealed as (party & json & e0 & Hp & Hj & ->).
  apply validateRecordShape_ok. apply sealed_well_shaped; try assumption.
  now apply hex_of_length_decoded.
Qed.

(** X17: on such a server the decrypt route answers 404 for an id that is not
    stored, and for a stored id either 200 with that id, the party of the
    record and a payload, or 400 "decryption failed": no error of the
    validator, of the master key or of the key of the environment. *)
Theorem decrypt_route_on_a_running_server (P : Platform) (L : PlatformLaws P)
        (env : option string) (requests : list (Request P)) (e : Entropy P)
        (params_id : string) :
  answers_decrypt P env (serve P env requests (start P e)) params_id.
Proof.
  unfold answers_decrypt.
  set (srv := serve P env requests (start P e)).
  destruct (serve_invariant P L env requests (start P e) (start_invariant P env e))
    as [Hok _]. fold srv in Hok.
  destruct (Map_get params_id (store srv)) as [record|] eqn:Hget.
  2:{ left. split; [reflexivity|]. unfold post_tx_decrypt. now rewrite Hget. }
  right.
  destruct (Hok _ _ Hget) as (Hid & key & Henv & Hk & Hsealed).
  destruct (sealed_under_opens P L key record (server_entropy srv) Hk Hsealed)
    as (json & Hout).
  assert (Hkey : getMasterKeyHex env = Ok key).
  { apply getMasterKeyHex_ok. split; [exact Henv|now apply key_of_64_nonempty]. }
  unfold post_tx_decrypt. rewrite Hget, Hkey. cbv zeta.
  unfold arguments_after.
  pose proof (decrypt_call_machine P record key (server_entropy srv)) as Hm.
  unfold decrypt_call in Hout, Hm. rewrite Hm, Hout.
  cbn [arguments dec_record].
  destruct (JSON_parse P json) as [payload|].
  - left. exists record, payload. split; [reflexivity|]. cbn [fst]. now rewrite Hid.
  - right. reflexivity.
Qed.

(** X16: with a master key of 64 hex digits in the environment, a party that
    is not empty and a payload whose JSON text parses back to it, [POST
    /tx/encrypt] answers 201 with a record of that party, and [POST
    /tx/:id/decrypt] with the id of the record then answers 200 with the id,
    the party and the payload, and leaves the server as it was. *)
Theorem routes_round_trip (P : Platform) (L : PlatformLaws P)
        (masterKeyHex party json : string) (payload : JSValue P)
        (srv : Server (Entropy P)) :
  hex_of_length masterKeyHex KEY_BYTES ->
  party <> "" ->
  JSON_stringify P payload = Ok (Some json) ->
  JSON_parse P json = Some payload ->
  exists record srv',
    post_tx_encrypt P (Some masterKeyHex) (encrypt_body party payload) srv
    = ({| status := 201; body := RecordBody record |}, srv')
    /\ partyId record = party
    /\ post_tx_decrypt P (Some masterKeyHex) (id record) srv'
       = ({| status := 200; body := PayloadBody (id record) party payload |},
          srv').
Proof.
  intros Hk Hp Hj Hparse.
  assert (Hkey : getMasterKeyHex (Some masterKeyHex) = Ok masterKeyHex).
  { apply getMasterKeyHex_ok. split; [reflexivity|now apply key_of_64_nonempty]. }
  set (call := encrypt_call P party payload masterKeyHex (server_entropy srv)).
  destruct (decrypt_encrypt P L party payload masterKeyHex json
              (server_entropy srv) (entropy_after call) Hp Hk Hj)
    as (record & Henc & Hdec).
  fold call in Henc. rewrite Hparse in Hdec.
  exists record,
    {| store := Map_set (id record) record (store srv);
       server_entropy := entropy_after call |}.
  assert (Hparty : partyId record = party).
  { exact (proj1 (envelope_structure P L party payload masterKeyHex
                    (server_entropy srv) record Henc)). }
  split; [|split; [exact Hparty|]].
  - unfold post_tx_encrypt, encrypt_body. cbn [isRecordInput]. rewrite Hkey.
    cbv zeta. cbn [body_partyId body_payload]. unfold encrypt_call in call.
    fold call. now rewrite Henc.
  - pose proof (read_routes_keep_the_server P (Some masterKeyHex) (id record)
                  {| store := Map_set (id record) record (store srv);
                     server_entropy := entropy_after call |}) as [_ Hsrv].
    rewrite (surjective_pairing (post_tx_decrypt _ _ _ _)), Hsrv. f_equal.
    unfold post_tx_decrypt. cbn [store server_entropy].
    rewrite Map_get_set_eq, Hkey. cbv zeta. unfold arguments_after.
    pose proof (decrypt_call_machine P record masterKeyHex (entropy_after call))
      as Hm.
    unfold decrypt_call in Hdec, Hm. rewrite Hm, Hdec.
    cbn [fst arguments dec_record]. now rewrite Hparty.
Qed.

(** ** Evaluations of the routes on the reference platform *)

(** A call with an empty party and a key that is not hex. *)
Lemma encrypt_entropy_witness :
  entropy_after (encrypt_call Reference.platform "" Reference.VUndefined "zz" 5%N)
  = 5%N.
Proof.
  apply (proj1 (encrypt_entropy Reference.platform ReferenceFacts.laws ""
                  Reference.VUndefined "zz" 5%N)).
  now left.
Defined.

(** The sample request on the server as it starts. *)
Lemma created_record_is_stored_witness :
  status (fst (post_tx_encrypt Reference.platform sample_env sample_body
                 (start Reference.platform 7%N))) = 201
  /\ exists record,
       body (fst (post_tx_encrypt Reference.platform sample_env sample_body
                    (start Reference.platform 7%N))) = RecordBody record.
Proof.
  assert (H : status (fst (post_tx_encrypt Reference.platform sample_env
                             sample_body (start Reference.platform 7%N))) = 201)
    by (vm_compute; reflexivity).
  split; [exact H|].
  destruct (created_record_is_stored Reference.platform sample_env sample_body
              (start Reference.platform 7%N) H) as (record & Hbody & _).
  exists record. exact Hbody.
Defined.

(** A body that is not an object. *)
Lemma refused_request_stores_nothing_witness :
  status (fst (post_tx_encrypt Reference.platform sample_env BodyNotObject
                 (start Reference.platform 7%N))) <> 201
  /\ store (snd (post_tx_encrypt Reference.platform sample_env BodyNotObject
                   (start Reference.platform 7%N))) = [].
Proof.
  assert (H : status (fst (post_tx_encrypt Reference.platform sample_env
                             BodyNotObject (start Reference.platform 7%N)))
              <> 201) by discriminate.
  split; [exact H|].
  exact (proj2 (proj2 (refused_request_stores_nothing Reference.platform
                         sample_env BodyNotObject
                         (start Reference.platform 7%N) H))).
Defined.

(** No key in the environment: a body with an empty party, and a body that
    is not an object. *)
Lemma encrypt_route_without_key_witness :
  post_tx_encrypt Reference.platform None
    (BodyObject (PartyString "") (Some Reference.VNull))
    (start Reference.platform 7%N)
  = ({| status := 400; body := ErrorBody KEY_NOT_SET |},
     start Reference.platform 7%N)
  /\ post_tx_encrypt Reference.platform None BodyNotObject
       (start Reference.platform 7%N)
     = ({| status := 400; body := ErrorBody INVALID_BODY |},
        start Reference.platform 7%N).
Proof.
  split.
  - apply (encrypt_route_without_key Reference.platform None
             (BodyObject (PartyString "") (Some Reference.VNull))
             (start Reference.platform 7%N)).
    now left.
  - apply (encrypt_route_without_key Reference.platform None BodyNotObject
             (start Reference.platform 7%N)).
    now left.
Defined.

(** The record of the sample run. *)
Lemma stored_records_are_sound_witness :
  Map_get (id Reference.sample_record) (store sample_server)
  = Some Reference.sample_record
  /\ validateRecordShape Reference.platform Reference.sample_record = Ok tt.
Proof.
  assert (H : Map_get (id Reference.sample_record) (store sample_server)
              = Some Reference.sample_record) by (vm_compute; reflexivity).
  split; [exact H|].
  exact (proj1 (proj2 (stored_records_are_sound Reference.platform
                         ReferenceFacts.laws sample_env [sample_request] 7%N
                         (id Reference.sample_record) Reference.sample_record
                         H))).
Defined.

(** The sample request, then the decrypt route on the id it answered. *)
Lemma routes_round_trip_witness :
  hex_of_length Reference.MASTER_KEY_HEX KEY_BYTES
  /\ exists record srv',
       post_tx_encrypt Reference.platform sample_env sample_body
         (start Reference.platform 7%N)
       = ({| status := 201; body := RecordBody record |}, srv')
       /\ partyId record = "party_123"
       /\ post_tx_decrypt Reference.platform sample_env (id record) srv'
          = ({| status := 200;
                body := PayloadBody (id record) "party_123"
                          Reference.sample_payload |}, srv').
Proof.
  assert (Hk : hex_of_length Reference.MASTER_KEY_HEX KEY_BYTES)
    by (split; vm_compute; reflexivity).
  split; [exact Hk|].
  apply (routes_round_trip Reference.platform ReferenceFacts.laws
           Reference.MASTER_KEY_HEX "party_123"
           ("{" ++ property "amount" "100" ++ ","
            ++ property "currency" (QuoteJSONString "AED") ++ "}")
           Reference.sample_payload (start Reference.platform 7%N) Hk);
    [discriminate|reflexivity|reflexivity].
Defined.

(** The decrypt route of the sample run, on an id that is not stored. *)
Lemma decrypt_route_on_a_running_server_witness :
  answers_decrypt Reference.platform sample_env sample_server "no-such-id".
Proof.
  exact (decrypt_route_on_a_running_server Reference.platform
           ReferenceFacts.laws sample_env [sample_request] 7%N "no-such-id").
Defined.
